(** * Logit-normal biased timestep scheduler ([scheduler.py])

    A shallow embedding of [get_biased_timesteps] and of the numpy
    operations it calls.  The function is written once, over an interface
    [Arith] of the floating-point operations it uses; the interface is then
    instantiated with IEEE-754 binary64 (numpy's [float64], the arithmetic
    the program runs on) and with exact real arithmetic (the arithmetic the
    docstring and the comments of the six stages reason in). *)

From Stdlib Require Import ZArith List Bool Lia.
From Stdlib Require Import Floats.
From Stdlib Require Import Reals Lra.
Import ListNotations.

Set Implicit Arguments.

(** ** Python results *)

(** The only exception the function can raise comes from numpy:
    [ValueError], Python's exception for an argument of the right type and
    an invalid value. *)
Inductive exn : Set := ValueError.

Inductive result (A : Type) : Type :=
| Ok (a : A)
| Raise (e : exn).

Arguments Ok {A} a.
Arguments Raise {A} e.

Definition bind {A B : Type} (r : result A) (k : A -> result B) : result B :=
  match r with
  | Ok a => k a
  | Raise e => Raise e
  end.

Notation "x <- r ;; k" := (bind r (fun x => k))
  (at level 61, r at next level, right associativity).

(** ** The floating-point interface *)

Class Arith (F : Type) : Type := {
  add : F -> F -> F;
  sub : F -> F -> F;
  mul : F -> F -> F;
  div : F -> F -> F;
  ltb : F -> F -> bool;        (* [<], false when an operand is NaN *)
  leb : F -> F -> bool;        (* [<=], false when an operand is NaN *)
  is_nan : F -> bool;          (* [np.isnan] *)
  of_int : Z -> F;             (* conversion of a Python int *)
  finfo_eps : F;               (* [np.finfo(float).eps] *)
  rint : F -> F;               (* [np.round]: nearest integer, ties to even *)
  astype_int : F -> Z          (* [.astype(int)]: the C cast to int64 *)
}.

(** ** numpy on lists *)

Section Numpy.
Context {F : Type} {A : Arith F}.

(** [np.arange(0, num)]. *)
Definition arange (num : Z) : list Z :=
  map Z.of_nat (seq 0 (Z.to_nat num)).

(** Writing [a[-1] = x]. *)
Definition set_last (x : F) (a : list F) : list F :=
  match a with
  | [] => []
  | _ => removelast a ++ [x]
  end.

(** [x == 0] on one float. *)
Definition is_zero (x : F) : bool := leb x (of_int 0) && leb (of_int 0) x.

(** [np.linspace(start, stop, num)] with [endpoint=True]: numpy refuses a
    negative [num], multiplies [arange(0, num)] by the step
    [(stop - start) / (num - 1)] (divides by [num - 1] and multiplies by
    [stop - start] when that step is zero, multiplies by [stop - start]
    alone when [num - 1] is not positive), adds [start], and stores [stop]
    itself in the last cell when [num > 1]. *)
Definition linspace (start stop : F) (num : Z) : result (list F) :=
  if (num <? 0)%Z then Raise ValueError
  else
    let dv := (num - 1)%Z in
    let delta := sub stop start in
    let y := map of_int (arange num) in
    let y :=
      if (0 <? dv)%Z then
        let step := div delta (of_int dv) in
        if is_zero step
        then map (fun yi => mul (div yi (of_int dv)) delta) y
        else map (fun yi => mul yi step) y
      else map (fun yi => mul yi delta) y in
    let y := map (fun yi => add yi start) y in
    Ok (if (1 <? num)%Z then set_last stop y else y).

(** [np.clip] on one float: [min(max(x, lo), hi)], a NaN [x] is kept. *)
Definition clip1 (lo hi x : F) : F :=
  let y := if is_nan x then x else if ltb lo x then x else lo in
  if is_nan y then y else if ltb y hi then y else hi.

Definition clip (a : list F) (lo hi : F) : list F := map (clip1 lo hi) a.

(** [np.minimum] and [np.maximum] on one pair: NaN propagates. *)
Definition minimum (a b : F) : F := if leb a b || is_nan a then a else b.
Definition maximum (a b : F) : F := if leb b a || is_nan a then a else b.

(** [a.min()] and [a.max()]: a reduction with no identity, so numpy
    raises [ValueError] on an empty array. *)
Definition amin (a : list F) : result F :=
  match a with
  | [] => Raise ValueError
  | x :: r => Ok (fold_left minimum r x)
  end.

Definition amax (a : list F) : result F :=
  match a with
  | [] => Raise ValueError
  | x :: r => Ok (fold_left maximum r x)
  end.

(** [np.round(a).astype(int)]. *)
Definition round_astype_int (a : list F) : list Z :=
  map (fun x => astype_int (rint x)) a.
End Numpy.

(** [np.clip] on an integer array. *)
Definition clip1_int (lo hi x : Z) : Z := Z.min (Z.max x lo) hi.

Definition clip_int (a : list Z) (lo hi : Z) : list Z := map (clip1_int lo hi) a.

(** Writing [a[i] = x] into an array, [i] within bounds. *)
Fixpoint set_nth (i : nat) (x : Z) (a : list Z) : list Z :=
  match a, i with
  | [], _ => []
  | _ :: r, O => x :: r
  | y :: r, S j => y :: set_nth j x r
  end.

(** ** The scheduler *)

(** The body of the loop of stage 6, at index [i]. *)
Definition repair_at (timesteps : list Z) (i : nat) : list Z :=
  if (nth i timesteps 0 <? nth (i - 1) timesteps 0)%Z
  then set_nth i (nth (i - 1) timesteps 0%Z) timesteps
  else timesteps.

(** Stage 6: [for i in range(1, len(timesteps))]. *)
Definition ensure_monotonic (timesteps : list Z) : list Z :=
  fold_left repair_at (seq 1 (length timesteps - 1)) timesteps.

Section Scheduler.
Context {F : Type} {A : Arith F}.

(** [scipy.stats.norm.ppf], the inverse of the standard normal CDF, is
    library code outside the repository: it is a parameter. *)
Variable ppf : F -> F.

(** The prefixes of the body that the properties speak of.  Stages 1
    and 2: the clipped uniform fractions. *)
Definition clipped_fractions (num_steps : Z) : result (list F) :=
  u <- linspace (of_int 0) (of_int 1) num_steps ;;
  let eps := finfo_eps in
  Ok (clip u eps (sub (of_int 1) eps)).

(** Stage 3. *)
Definition warp (m s : F) (u : list F) : list F :=
  map (fun ui => add m (mul s (ppf ui))) u.

(** Stage 4 on an array [v]; [v.min()] is evaluated twice and [v.max()]
    once in the source, with the same results each time. *)
Definition rescale (v : list F) (num_steps : Z) : result (list F) :=
  vmin <- amin v ;;
  vmax <- amax v ;;
  Ok (map (fun vi => mul (div (sub vi vmin) (sub vmax vmin))
                         (of_int (num_steps - 1))) v).

(** The divisor of stage 4. *)
Definition rescale_denominator (num_steps : Z) (m s : F) : result F :=
  u <- clipped_fractions num_steps ;;
  let v := warp m s u in
  vmin <- amin v ;;
  vmax <- amax v ;;
  Ok (sub vmax vmin).

(** Stages 1 to 4: the continuous sequence [t]. *)
Definition continuous_timesteps (num_steps : Z) (m s : F) : result (list F) :=
  u <- clipped_fractions num_steps ;;
  let v := warp m s u in
  rescale v num_steps.

(** Stages 1 to 5: [timesteps] as it enters the loop. *)
Definition rounded_timesteps (num_steps : Z) (m s : F) : result (list Z) :=
  t <- continuous_timesteps num_steps m s ;;
  let timesteps := round_astype_int t in
  Ok (clip_int timesteps 0 (num_steps - 1)).

(** The function, stage by stage as the source has it.  [v.min()] is
    evaluated, then [v.max()], then [v.min()] again. *)
Definition get_biased_timesteps (num_steps : Z) (m s : F) : result (list Z) :=
  (* 1. Uniform fractions *)
  u <- linspace (of_int 0) (of_int 1) num_steps ;;
  (* 2. Avoid infinite tails *)
  let eps := finfo_eps in
  let u := clip u eps (sub (of_int 1) eps) in
  (* 3. Apply inverse Gaussian CDF *)
  let v := map (fun ui => add m (mul s (ppf ui))) u in
  (* 4. Rescale to [0, T-1] *)
  vmin <- amin v ;;
  vmax <- amax v ;;
  vmin' <- amin v ;;
  let t := map (fun vi => mul (div (sub vi vmin) (sub vmax vmin'))
                              (of_int (num_steps - 1))) v in
  (* 5. Round and enforce bounds *)
  let timesteps := round_astype_int t in
  let timesteps := clip_int timesteps 0 (num_steps - 1) in
  (* 6. Ensure monotonicity *)
  Ok (ensure_monotonic timesteps).
End Scheduler.

(** The default parameters of the signature: [m = 0.0] and [s = 0.5]. *)
Definition default_m {F : Type} {A : Arith F} : F := of_int 0.
Definition default_s {F : Type} {A : Arith F} : F := div (of_int 1) (of_int 2).

(** ** IEEE-754 binary64: the arithmetic of numpy's [float64] *)

Module B64.
Open Scope float_scope.

(** Conversion of a Python int, rounded to the nearest float. *)
Definition of_int (z : Z) : float :=
  SF2Prim (binary_normalize prec emax z 0 false).

(** The integer nearest to [m * 2^e], ties to even. *)
Definition nearest_even (m : positive) (e : Z) : Z :=
  match e with
  | Zneg k =>
      let d := Z.pow_pos 2 k in
      let q := (Zpos m / d)%Z in
      let r := (Zpos m mod d)%Z in
      match (2 * r ?= d)%Z with
      | Lt => q
      | Gt => (q + 1)%Z
      | Eq => if Z.even q then q else (q + 1)%Z
      end
  | _ => (Zpos m * 2 ^ e)%Z
  end.

(** [m * 2^e] rounded toward zero. *)
Definition truncate (m : positive) (e : Z) : Z :=
  match e with
  | Zneg k => (Zpos m / Z.pow_pos 2 k)%Z
  | _ => (Zpos m * 2 ^ e)%Z
  end.

(** [np.round] on one float64: a float with no fractional bits (and
    NaN, the infinities and the zeros) is returned as it is. *)
Definition rint (x : float) : float :=
  match Prim2SF x with
  | S754_finite s m (Zneg k) =>
      SF2Prim (binary_normalize prec emax
                 (cond_Zopp s (nearest_even m (Zneg k))) 0 s)
  | _ => x
  end.

Definition int64_min : Z := (- 2 ^ 63)%Z.

(** [.astype(int)] on one float64, as numpy does it on x86-64: the cast
    truncates, and NaN, the infinities and the values outside int64 all
    give the most negative int64. *)
Definition astype_int (x : float) : Z :=
  match Prim2SF x with
  | S754_zero _ => 0%Z
  | S754_finite s m e =>
      let z := cond_Zopp s (truncate m e) in
      if ((int64_min <=? z) && (z <? 2 ^ 63))%Z then z else int64_min
  | _ => int64_min
  end.

#[global] Instance arith : Arith float := {
  add := PrimFloat.add;
  sub := PrimFloat.sub;
  mul := PrimFloat.mul;
  div := PrimFloat.div;
  ltb := PrimFloat.ltb;
  leb := PrimFloat.leb;
  is_nan := PrimFloat.is_nan;
  of_int := of_int;
  finfo_eps := 0x1p-52;
  rint := rint;
  astype_int := astype_int
}.

(** A zero or NaN, on the specification of a float. *)
Definition SFzero_or_nan (x : spec_float) : Prop :=
  match x with
  | S754_zero _ | S754_nan => True
  | _ => False
  end.

(** The values of [scipy.stats.norm.ppf] at the three arguments that
    stage 3 passes to it when [num_steps] is 2 or 3: the clipped end
    points [eps] and [1 - eps], and [0.5]. *)
Definition ppf_table (u : float) : float :=
  if u =? 0x1p-52 then -0x1.04074bdbf8865p+3        (* about -8.1258906647 *)
  else if u =? 1 - 0x1p-52 then 0x1.04074bdbf8865p+3  (* about 8.1258906647 *)
  else if u =? 0.5 then 0
  else nan.

(** A [ppf] defined on every float: the end-point values of the table
    below and above [0.5], and NaN on NaN. *)
Definition ppf_step (u : float) : float :=
  if is_nan u then nan
  else if u <? 0.5 then -0x1.04074bdbf8865p+3
  else if u =? 0.5 then 0
  else 0x1.04074bdbf8865p+3.

(** What the property of the first element asks of [ppf]: a NaN argument
    gives a NaN, and no argument of [[eps, 1 - eps]] gives less than
    [eps] does (as for a non-decreasing [ppf]). *)
Definition keeps_nan (ppf : float -> float) : Prop :=
  forall x : float, is_nan x = true -> is_nan (ppf x) = true.

Definition least_at_eps (ppf : float -> float) : Prop :=
  forall x : float,
    (0x1p-52 <=? x) = true -> (x <=? 1 - 0x1p-52) = true ->
    (ppf 0x1p-52 <=? ppf x) = true.

(** The specification of [0.5], and of the product [0.5 * x] for a float
    [x] of significand [m] and exponent [e]: the exponent is lowered by
    one, and at the least exponent the significand is halved and rounded
    to nearest, ties to even. *)
Definition half_sf : spec_float := S754_finite false 4503599627370496 (-53).

Definition half_sub (s : bool) (m : positive) : spec_float :=
  match m with
  | xH => S754_zero s
  | xO p => S754_finite s p (-1074)
  | xI p => S754_finite s (if Z.even (Zpos p) then p else Pos.succ p) (-1074)
  end.

Definition half_spec (x : spec_float) : spec_float :=
  match x with
  | S754_finite s m e =>
      if (e =? -1074)%Z then half_sub s m else S754_finite s m (e - 1)
  | _ => x
  end.
End B64.


(** ** Exact arithmetic: the reals, with one invalid value *)

Module Exact.
Open Scope R_scope.

(** [None] is the result of a division by zero and of every operation
    on it, as NaN is in IEEE arithmetic. *)
Abbreviation xreal := (option R).

Definition lift2 (f : R -> R -> R) (a b : xreal) : xreal :=
  match a, b with
  | Some x, Some y => Some (f x y)
  | _, _ => None
  end.

Definition xdiv (a b : xreal) : xreal :=
  match a, b with
  | Some x, Some y => if Req_dec_T y 0 then None else Some (x / y)
  | _, _ => None
  end.

Definition xltb (a b : xreal) : bool :=
  match a, b with
  | Some x, Some y => if Rlt_dec x y then true else false
  | _, _ => false
  end.

Definition xleb (a b : xreal) : bool :=
  match a, b with
  | Some x, Some y => if Rle_dec x y then true else false
  | _, _ => false
  end.

Definition xis_nan (a : xreal) : bool :=
  match a with Some _ => false | None => true end.

(** The greatest integer below or equal to [x]. *)
Definition floor (x : R) : Z := (up x - 1)%Z.

(** The integer nearest to [x], ties to even. *)
Definition nearest_even (x : R) : Z :=
  let f := floor x in
  let d := x - IZR f in
  if Rlt_dec d (1 / 2) then f
  else if Rlt_dec (1 / 2) d then (f + 1)%Z
  else if Z.even f then f else (f + 1)%Z.

Definition xrint (a : xreal) : xreal :=
  match a with
  | Some x => Some (IZR (nearest_even x))
  | None => None
  end.

(** [x] rounded toward zero. *)
Definition truncate (x : R) : Z :=
  if Rle_dec 0 x then floor x else (- floor (- x))%Z.

(** The cast to an integer: exact integers have no range to leave, and
    the invalid value is cast as NaN is. *)
Definition xastype_int (a : xreal) : Z :=
  match a with
  | Some x => truncate x
  | None => B64.int64_min
  end.

(** The machine epsilon of binary64, [2^-52]. *)
Definition eps : R := / 4503599627370496.


#[global] Instance arith : Arith xreal := {
  add := lift2 Rplus;
  sub := lift2 Rminus;
  mul := lift2 Rmult;
  div := xdiv;
  ltb := xltb;
  leb := xleb;
  is_nan := xis_nan;
  of_int := fun z => Some (IZR z);
  finfo_eps := Some eps;
  rint := xrint;
  astype_int := xastype_int
}.

(** A real function as a [ppf] of the exact arithmetic. *)
Definition lift (phi : R -> R) (a : xreal) : xreal :=
  match a with
  | Some x => Some (phi x)
  | None => None
  end.

(** *** The stages on reals *)

(** The value of [np.linspace(0, 1, n)[k]]: [k * ((1 - 0) / (n - 1)) + 0]. *)
Definition fraction (n : Z) (k : nat) : R :=
  IZR (Z.of_nat k) * ((1 - 0) / IZR (n - 1)) + 0.

(** [clip1] on a real, with the bounds of stage 2. *)
Definition clipR (x : R) : R :=
  let y := if Rlt_dec eps x then x else eps in
  if Rlt_dec y (1 - eps) then y else 1 - eps.

(** One element of stage 4 on reals. *)
Definition scaled (n : Z) (mn mx v : R) : xreal :=
  if Req_dec_T (mx - mn) 0 then None
  else Some ((v - mn) / (mx - mn) * IZR (n - 1)).

(** [v[k]] in exact arithmetic. *)
Definition warped (phi : R -> R) (n : Z) (m s : R) (k : nat) : R :=
  m + s * phi (clipR (fraction n k)).

(** What the properties below ask of the inverse normal CDF. *)
Definition increasing (phi : R -> R) : Prop :=
  forall x y : R, 0 < x -> x < y -> y < 1 -> phi x < phi y.

Definition non_decreasing_on_unit (phi : R -> R) : Prop :=
  forall x y : R, 0 < x -> x <= y -> y < 1 -> phi x <= phi y.

Definition odd_about_half (phi : R -> R) : Prop :=
  forall x : R, phi (1 - x) = - phi x.
End Exact.

(** ** Vocabulary of the properties *)

(** The loop of stage 6 carries the last value written down the array. *)
Fixpoint forward_fill (prev : Z) (l : list Z) : list Z :=
  match l with
  | [] => []
  | x :: r =>
      let y := if (x <? prev)%Z then prev else x in
      y :: forward_fill y r
  end.

(** [result[i] >= result[i-1]] for all [i > 0]. *)
Definition non_decreasing (l : list Z) : Prop :=
  forall i : nat, (0 < i < length l)%nat -> (nth (i - 1) l 0 <= nth i l 0)%Z.

(** The values that stage 4 can produce from [v[0] - v.min()] when [v[0]]
    is the minimum: a zero or NaN. *)
Definition zero_or_nan {F : Type} {A : Arith F} (x : F) : Prop :=
  is_nan x = true \/ is_zero x = true.

(** What the proof of the first element uses of an arithmetic: a zero or
    NaN stays one through stages 4 and 5, and is cast to 0 or below. *)
Class ZeroLaws {F : Type} (A : Arith F) : Prop := {
  sub_diag : forall x : F, zero_or_nan (sub x x);
  div_zero : forall x d : F, zero_or_nan x -> zero_or_nan (div x d);
  mul_zero : forall x k : F, zero_or_nan x -> zero_or_nan (mul x k);
  rint_zero : forall x : F, zero_or_nan x -> zero_or_nan (rint x);
  cast_zero : forall x : F, zero_or_nan x -> (astype_int x <= 0)%Z
}.

(** [v[0]] is below or equal to every later element. *)
Definition first_is_least {F : Type} {A : Arith F} (v : list F) : Prop :=
  match v with
  | [] => True
  | v0 :: r => Forall (fun vi => leb v0 vi = true) r
  end.

(** [x == y] on two floats. *)
Definition same {F : Type} {A : Arith F} (x y : F) : bool :=
  leb x y && leb y x.

(** A warped value that is NaN or equal to [c]. *)
Definition nan_or_same {F : Type} {A : Arith F} (c x : F) : Prop :=
  is_nan x = true \/ same x c = true.

(** What the proofs of the degenerate warps use of an arithmetic: NaN
    goes through every operation of stages 3 to 5, equal values have a
    zero or NaN difference, a zero or NaN divided by a zero or NaN is NaN,
    a zero scale gives a zero or NaN product, and adding a zero gives the
    other operand back. *)
Class DegenerateLaws {F : Type} (A : Arith F) : Prop := {
  nan_add_l : forall x y : F, is_nan x = true -> is_nan (add x y) = true;
  nan_add_r : forall x y : F, is_nan y = true -> is_nan (add x y) = true;
  nan_sub_l : forall x y : F, is_nan x = true -> is_nan (sub x y) = true;
  nan_sub_r : forall x y : F, is_nan y = true -> is_nan (sub x y) = true;
  nan_mul_l : forall x y : F, is_nan x = true -> is_nan (mul x y) = true;
  nan_rint : forall x : F, is_nan x = true -> is_nan (rint x) = true;
  nan_cast : forall x : F, is_nan x = true -> (astype_int x <= 0)%Z;
  sub_same : forall a b c : F,
    same a c = true -> same b c = true -> zero_or_nan (sub a b);
  zero_div_zero : forall x d : F,
    zero_or_nan x -> zero_or_nan d -> is_nan (div x d) = true;
  zero_mul : forall s x : F, is_zero s = true -> zero_or_nan (mul s x);
  add_zero : forall m z : F,
    zero_or_nan z -> is_nan (add m z) = true \/ same (add m z) m = true
}.

(** * Properties *)

(** ** Stage 6 as a forward fill *)

Lemma set_nth_app (pre : list Z) (x y : Z) (r : list Z) :
  set_nth (length pre) y (pre ++ x :: r) = pre ++ y :: r.
Proof.
  induction pre as [|a pre IH]; simpl; [reflexivity|].
  now rewrite IH.
Qed.

Lemma nth_app_here (pre : list Z) (x : Z) (r : list Z) :
  nth (length pre) (pre ++ x :: r) 0%Z = x.
Proof.
  induction pre as [|a pre IH]; simpl; auto.
Qed.

Lemma repair_loop_from (r : list Z) :
  forall (pre : list Z) (p : Z),
    fold_left repair_at (seq (S (length pre)) (length r)) (pre ++ p :: r)
    = pre ++ p :: forward_fill p r.
Proof.
  induction r as [|x r IH]; intros pre p; simpl; [reflexivity|].
  assert (Hx : nth (S (length pre)) (pre ++ p :: x :: r) 0%Z = x).
  { replace (pre ++ p :: x :: r) with ((pre ++ [p]) ++ x :: r)
      by (rewrite <- app_assoc; reflexivity).
    replace (S (length pre)) with (length (pre ++ [p]))
      by (rewrite length_app; simpl; lia).
    apply nth_app_here. }
  assert (Hp : nth (length pre - 0) (pre ++ p :: x :: r) 0%Z = p).
  { rewrite Nat.sub_0_r. apply nth_app_here. }
  unfold repair_at at 2. simpl Nat.sub. rewrite Hx, Hp.
  set (y := if (x <? p)%Z then p else x).
  assert (Hy : (if (x <? p)%Z
                then set_nth (S (length pre)) p (pre ++ p :: x :: r)
                else pre ++ p :: x :: r) = (pre ++ [p]) ++ y :: r).
  { subst y. destruct (x <? p)%Z.
    - replace (pre ++ p :: x :: r) with ((pre ++ [p]) ++ x :: r)
        by (rewrite <- app_assoc; reflexivity).
      replace (S (length pre)) with (length (pre ++ [p]))
        by (rewrite length_app; simpl; lia).
      apply set_nth_app.
    - rewrite <- app_assoc. reflexivity. }
  rewrite Hy.
  replace (S (S (length pre))) with (S (length (pre ++ [p])))
    by (rewrite length_app; simpl; lia).
  rewrite IH. rewrite <- app_assoc. reflexivity.
Qed.

Lemma ensure_monotonic_cons (x : Z) (r : list Z) :
  ensure_monotonic (x :: r) = x :: forward_fill x r.
Proof.
  unfold ensure_monotonic.
  replace (length (x :: r) - 1)%nat with (length r) by (simpl; lia).
  exact (repair_loop_from r [] x).
Qed.

Lemma ensure_monotonic_nil : ensure_monotonic [] = [].
Proof. reflexivity. Qed.

Lemma forward_fill_length (l : list Z) : forall p, length (forward_fill p l) = length l.
Proof.
  induction l as [|x l IH]; intros p; simpl; [reflexivity|].
  now rewrite IH.
Qed.

Lemma ensure_monotonic_length (l : list Z) : length (ensure_monotonic l) = length l.
Proof.
  destruct l as [|x r]; [reflexivity|].
  rewrite ensure_monotonic_cons. simpl. now rewrite forward_fill_length.
Qed.


Lemma non_decreasing_cons (x y : Z) (l : list Z) :
  (x <= y)%Z -> non_decreasing (y :: l) -> non_decreasing (x :: y :: l).
Proof.
  intros Hxy Hl i Hi.
  destruct i as [|[|i]]; [lia| simpl; exact Hxy |].
  specialize (Hl (S i)). simpl in Hl, Hi |- *.
  rewrite Nat.sub_0_r in Hl. apply Hl. lia.
Qed.

Lemma non_decreasing_tail (x : Z) (l : list Z) :
  non_decreasing (x :: l) -> non_decreasing l.
Proof.
  intros H i Hi. specialize (H (S i)).
  destruct i as [|i]; [lia|]. simpl in H |- *.
  rewrite Nat.sub_0_r. apply H. simpl. lia.
Qed.

Lemma non_decreasing_head (x y : Z) (l : list Z) :
  non_decreasing (x :: y :: l) -> (x <= y)%Z.
Proof.
  intros H. apply (H 1%nat). simpl. lia.
Qed.

Lemma forward_fill_non_decreasing (l : list Z) :
  forall p, non_decreasing (p :: forward_fill p l).
Proof.
  induction l as [|x l IH]; intros p.
  - intros i Hi. simpl in Hi. lia.
  - simpl. apply non_decreasing_cons; [|apply IH].
    destruct (Z.ltb_spec x p); lia.
Qed.

Lemma ensure_monotonic_non_decreasing (l : list Z) :
  non_decreasing (ensure_monotonic l).
Proof.
  destruct l as [|x r].
  - intros i Hi. simpl in Hi. lia.
  - rewrite ensure_monotonic_cons. apply forward_fill_non_decreasing.
Qed.

(** A sequence that is already non-decreasing goes through the loop
    unchanged. *)
Lemma forward_fill_fixed (l : list Z) :
  forall p, non_decreasing (p :: l) -> forward_fill p l = l.
Proof.
  induction l as [|x l IH]; intros p H; simpl; [reflexivity|].
  pose proof (non_decreasing_head H) as Hpx.
  destruct (Z.ltb_spec x p); [lia|].
  f_equal. apply IH. exact (non_decreasing_tail H).
Qed.

Lemma ensure_monotonic_fixed (l : list Z) :
  non_decreasing l -> ensure_monotonic l = l.
Proof.
  destruct l as [|x r]; intros H; [reflexivity|].
  rewrite ensure_monotonic_cons. f_equal. now apply forward_fill_fixed.
Qed.

Lemma forward_fill_bounds (lo hi : Z) (l : list Z) :
  forall p, (lo <= p <= hi)%Z ->
    Forall (fun x => lo <= x <= hi)%Z l ->
    Forall (fun x => lo <= x <= hi)%Z (forward_fill p l).
Proof.
  induction l as [|x l IH]; intros p Hp Hl; simpl; [constructor|].
  inversion Hl as [|? ? Hx Hr]; subst.
  destruct (Z.ltb_spec x p); constructor; auto.
Qed.

Lemma ensure_monotonic_bounds (lo hi : Z) (l : list Z) :
  Forall (fun x => lo <= x <= hi)%Z l ->
  Forall (fun x => lo <= x <= hi)%Z (ensure_monotonic l).
Proof.
  destruct l as [|x r]; intros H; [constructor|].
  rewrite ensure_monotonic_cons.
  inversion H; subst. constructor; [assumption|].
  now apply forward_fill_bounds.
Qed.

Lemma clip_int_bounds (l : list Z) (lo hi : Z) :
  (lo <= hi)%Z -> Forall (fun x => lo <= x <= hi)%Z (clip_int l lo hi).
Proof.
  intros H. unfold clip_int, clip1_int. apply Forall_forall.
  intros x Hx. apply in_map_iff in Hx. destruct Hx as [y [<- _]]. lia.
Qed.

(** ** The shape of a run *)

Section Run.
Context {F : Type} {A : Arith F}.
Variable ppf : F -> F.

(** The body is the composition of its stages. *)
Lemma get_biased_timesteps_stages (num_steps : Z) (m s : F) :
  get_biased_timesteps ppf num_steps m s
  = (timesteps <- rounded_timesteps ppf num_steps m s ;;
     Ok (ensure_monotonic timesteps)).
Proof.
  unfold get_biased_timesteps, rounded_timesteps, continuous_timesteps,
    clipped_fractions, rescale, warp.
  destruct (linspace (of_int 0) (of_int 1) num_steps) as [u|e];
    [|reflexivity].
  cbn [bind].
  destruct (map _ (clip u _ _)) as [|v0 r]; reflexivity.
Qed.

Lemma arange_length (num : Z) : length (arange num) = Z.to_nat num.
Proof. unfold arange. now rewrite length_map, length_seq. Qed.

Lemma set_last_length (x : F) (a : list F) : length (set_last x a) = length a.
Proof.
  destruct a as [|y a]; [reflexivity|]. unfold set_last.
  rewrite length_app, removelast_firstn_len, length_firstn. simpl. lia.
Qed.

Lemma linspace_negative (start stop : F) (num : Z) :
  (num < 0)%Z -> linspace start stop num = Raise ValueError.
Proof.
  intros H. unfold linspace. destruct (Z.ltb_spec num 0); [reflexivity|lia].
Qed.

Lemma linspace_length (start stop : F) (num : Z) :
  (0 <= num)%Z ->
  exists u, linspace start stop num = Ok u /\ length u = Z.to_nat num.
Proof.
  intros H. unfold linspace. destruct (Z.ltb_spec num 0); [lia|].
  eexists. split; [reflexivity|].
  destruct (1 <? num)%Z; [rewrite set_last_length|];
    rewrite length_map; destruct (0 <? num - 1)%Z;
    try destruct (is_zero _);
    now rewrite length_map, length_map, arange_length.
Qed.

Lemma clipped_fractions_length (num_steps : Z) :
  (0 <= num_steps)%Z ->
  exists u, clipped_fractions num_steps = Ok u /\ length u = Z.to_nat num_steps.
Proof.
  intros H. unfold clipped_fractions.
  destruct (linspace_length (of_int 0) (of_int 1) H) as [u [-> Hu]].
  simpl. eexists. split; [reflexivity|].
  unfold clip. now rewrite length_map.
Qed.

Lemma warp_length (m s : F) (u : list F) : length (warp ppf m s u) = length u.
Proof. unfold warp. apply length_map. Qed.

Lemma rescale_length (v : list F) (num_steps : Z) :
  v <> [] ->
  exists t, rescale v num_steps = Ok t /\ length t = length v.
Proof.
  intros H. destruct v as [|x r]; [congruence|].
  unfold rescale. simpl. eexists. split; [reflexivity|].
  simpl. now rewrite length_map.
Qed.

Lemma rescale_empty (num_steps : Z) : rescale [] num_steps = Raise ValueError.
Proof. reflexivity. Qed.

Lemma continuous_timesteps_length (num_steps : Z) (m s : F) :
  (1 <= num_steps)%Z ->
  exists t, continuous_timesteps ppf num_steps m s = Ok t
            /\ length t = Z.to_nat num_steps.
Proof.
  intros H. unfold continuous_timesteps.
  destruct (@clipped_fractions_length num_steps) as [u [-> Hu]]; [lia|].
  simpl.
  destruct (@rescale_length (warp ppf m s u) num_steps) as [t [-> Ht]].
  - intros E. apply (f_equal (@length F)) in E.
    rewrite warp_length, Hu in E. simpl in E. lia.
  - exists t. split; [reflexivity|]. now rewrite Ht, warp_length.
Qed.

(** A call with [num_steps >= 1] goes through the six stages. *)
Lemma get_biased_timesteps_run (num_steps : Z) (m s : F) :
  (1 <= num_steps)%Z ->
  exists t,
    continuous_timesteps ppf num_steps m s = Ok t
    /\ length t = Z.to_nat num_steps
    /\ rounded_timesteps ppf num_steps m s
       = Ok (clip_int (round_astype_int t) 0 (num_steps - 1))
    /\ get_biased_timesteps ppf num_steps m s
       = Ok (ensure_monotonic
               (clip_int (round_astype_int t) 0 (num_steps - 1))).
Proof.
  intros H.
  destruct (continuous_timesteps_length m s H) as [t [Ht Hl]].
  exists t. rewrite get_biased_timesteps_stages. unfold rounded_timesteps.
  rewrite Ht. simpl. auto.
Qed.

Lemma stage5_length (t : list F) (hi : Z) :
  length (clip_int (round_astype_int t) 0 hi) = length t.
Proof. unfold clip_int, round_astype_int. now rewrite !length_map. Qed.
End Run.

(** ** Runs on binary64 *)

Example default_s_binary64 : default_s = 0.5%float.
Proof. reflexivity. Qed.

Example three_steps_binary64 :
  get_biased_timesteps B64.ppf_table 3 default_m default_s = Ok [0; 1; 2]%Z.
Proof. vm_compute. reflexivity. Qed.

Example three_steps_loop_idle_binary64 :
  rounded_timesteps B64.ppf_table 3 default_m default_s
  = get_biased_timesteps B64.ppf_table 3 default_m default_s.
Proof. vm_compute. reflexivity. Qed.

Example three_fractions_binary64 :
  clipped_fractions 3 = Ok [0x1p-52; 0.5; 1 - 0x1p-52]%float.
Proof. vm_compute. reflexivity. Qed.

(** ** Invalid [num_steps] *)

(** C1. For every integer [num_steps < 1] (0 and -1 among them) and every
    [m] and [s], on every arithmetic and for every [ppf], the call raises
    [ValueError], the invalid-argument exception of Python, and returns no
    sequence: a negative [num_steps] is refused by [np.linspace], and with
    [num_steps = 0] the reduction [v.min()] of stage 4 is applied to an
    empty array. *)
Theorem invalid_num_steps_raises :
  forall (F : Type) (A : Arith F) (ppf : F -> F) (num_steps : Z) (m s : F),
    (num_steps < 1)%Z ->
    get_biased_timesteps ppf num_steps m s = Raise ValueError.
Proof.
  intros F A ppf num_steps m s H.
  rewrite get_biased_timesteps_stages.
  unfold rounded_timesteps, continuous_timesteps,
    clipped_fractions.
  destruct (Z.ltb_spec num_steps 0) as [Hneg|Hpos].
  - rewrite linspace_negative by assumption. reflexivity.
  - assert (num_steps = 0%Z) as -> by lia. reflexivity.
Qed.

Lemma invalid_num_steps_raises_witness :
  (-1 < 1)%Z /\ (0 < 1)%Z
  /\ get_biased_timesteps B64.ppf_table (-1) 0%float 0.5%float = Raise ValueError
  /\ get_biased_timesteps B64.ppf_table 0 0%float 0.5%float = Raise ValueError.
Proof.
  split; [lia|]. split; [lia|]. split.
  - apply (@invalid_num_steps_raises float B64.arith B64.ppf_table (-1)%Z). lia.
  - apply (@invalid_num_steps_raises float B64.arith B64.ppf_table 0%Z). lia.
Defined.

(** ** The degenerate case *)

(** C2. For [num_steps = 1], with any [m] and [s] (on every arithmetic and
    for every [ppf]), the call returns the one-element sequence [[0]]:
    whatever integer the cast of stage 5 produces from the quotient of
    stage 4, clipping it to [[0, 0]] gives 0. *)
Theorem single_step_is_zero :
  forall (F : Type) (A : Arith F) (ppf : F -> F) (m s : F),
    get_biased_timesteps ppf 1 m s = Ok [0%Z].
Proof.
  intros F A ppf m s.
  rewrite get_biased_timesteps_stages.
  unfold rounded_timesteps, continuous_timesteps,
    clipped_fractions. simpl.
  rewrite ensure_monotonic_cons. simpl forward_fill.
  unfold clip1_int. f_equal. f_equal. lia.
Qed.

(** ** Length, bounds and order of the result *)

(** C5. For every positive [num_steps] and all [m], [s], the call returns
    a sequence of exactly [num_steps] elements. *)
Theorem result_length :
  forall (F : Type) (A : Arith F) (ppf : F -> F) (num_steps : Z) (m s : F),
    (1 <= num_steps)%Z ->
    exists timesteps,
      get_biased_timesteps ppf num_steps m s = Ok timesteps
      /\ Z.of_nat (length timesteps) = num_steps.
Proof.
  intros F A ppf num_steps m s H.
  destruct (get_biased_timesteps_run ppf m s H) as [t [_ [Hl [_ ->]]]].
  eexists. split; [reflexivity|].
  rewrite ensure_monotonic_length, stage5_length, Hl. lia.
Qed.

Lemma result_length_witness :
  (1 <= 3)%Z
  /\ exists timesteps,
       get_biased_timesteps B64.ppf_table 3 0%float 0.5%float = Ok timesteps
       /\ Z.of_nat (length timesteps) = 3%Z.
Proof.
  split; [lia|].
  apply (@result_length float B64.arith B64.ppf_table 3%Z). lia.
Defined.

(** C4. For every positive [num_steps] and all [m], [s], every element [x]
    of the returned sequence is an integer with
    [0 <= x <= num_steps - 1]. *)
Theorem result_bounds :
  forall (F : Type) (A : Arith F) (ppf : F -> F) (num_steps : Z) (m s : F),
    (1 <= num_steps)%Z ->
    exists timesteps,
      get_biased_timesteps ppf num_steps m s = Ok timesteps
      /\ forall x, In x timesteps -> (0 <= x <= num_steps - 1)%Z.
Proof.
  intros F A ppf num_steps m s H.
  destruct (get_biased_timesteps_run ppf m s H) as [t [_ [_ [_ ->]]]].
  eexists. split; [reflexivity|].
  apply Forall_forall. apply ensure_monotonic_bounds.
  apply clip_int_bounds. lia.
Qed.

Lemma result_bounds_witness :
  (1 <= 3)%Z
  /\ exists timesteps,
       get_biased_timesteps B64.ppf_table 3 0%float 0.5%float = Ok timesteps
       /\ forall x, In x timesteps -> (0 <= x <= 3 - 1)%Z.
Proof.
  split; [lia|].
  apply (@result_bounds float B64.arith B64.ppf_table 3%Z). lia.
Defined.

(** C3. For every positive [num_steps] and all [m], [s], the returned
    sequence is non-decreasing: [result[i] >= result[i-1]] for every index
    [i > 0]. *)
Theorem result_non_decreasing :
  forall (F : Type) (A : Arith F) (ppf : F -> F) (num_steps : Z) (m s : F),
    (1 <= num_steps)%Z ->
    exists timesteps,
      get_biased_timesteps ppf num_steps m s = Ok timesteps
      /\ forall i : nat, (0 < i < length timesteps)%nat ->
           (nth i timesteps 0 >= nth (i - 1) timesteps 0)%Z.
Proof.
  intros F A ppf num_steps m s H.
  destruct (get_biased_timesteps_run ppf m s H) as [t [_ [_ [_ ->]]]].
  eexists. split; [reflexivity|].
  intros i Hi. apply Z.le_ge. now apply ensure_monotonic_non_decreasing.
Qed.

Lemma result_non_decreasing_witness :
  (1 <= 3)%Z
  /\ exists timesteps,
       get_biased_timesteps B64.ppf_table 3 0%float 0.5%float = Ok timesteps
       /\ forall i : nat, (0 < i < length timesteps)%nat ->
            (nth i timesteps 0 >= nth (i - 1) timesteps 0)%Z.
Proof.
  split; [lia|].
  apply (@result_non_decreasing float B64.arith B64.ppf_table 3%Z). lia.
Defined.

(** ** The first element *)


Module B64Laws.
Open Scope float_scope.


Lemma SFcompare_refl (x : spec_float) :
  x <> S754_nan -> SFcompare x x = Some Eq.
Proof.
  destruct x as [s|s| |s m e]; intros H; simpl; try congruence.
  - now destruct s.
  - rewrite Z.compare_refl.
    assert (Pos.compare_cont Eq m m = Eq) as -> by apply Pos.compare_cont_refl.
    now destruct s.
Qed.

Lemma is_nan_spec (x : float) :
  PrimFloat.is_nan x = true <-> Prim2SF x = S754_nan.
Proof.
  unfold PrimFloat.is_nan. rewrite eqb_spec. unfold SFeqb. split.
  - intros H. destruct (Prim2SF x) eqn:E; try reflexivity;
      rewrite SFcompare_refl in H by congruence; discriminate.
  - intros ->. reflexivity.
Qed.

Lemma zero_or_nan_b64 (x : float) :
  zero_or_nan x <-> B64.SFzero_or_nan (Prim2SF x).
Proof.
  unfold zero_or_nan, is_zero. cbn [is_nan leb of_int B64.arith].
  rewrite is_nan_spec, !leb_spec.
  replace (Prim2SF (B64.of_int 0)) with (S754_zero false) by reflexivity.
  destruct (Prim2SF x) as [s|s| |s m e]; simpl; split; intros H;
    try tauto; try (left; reflexivity); try (right; reflexivity);
    destruct H as [H|H]; try discriminate; destruct s; discriminate.
Qed.

#[global] Instance laws : ZeroLaws B64.arith.
Proof.
  split; cbn [sub div mul rint astype_int B64.arith].
  - intros x. apply zero_or_nan_b64. rewrite sub_spec.
    destruct (Prim2SF x) as [s|s| |s m e]; simpl; try exact I.
    + now destruct s.
    + now destruct s.
    + unfold SF64sub, SFsub. rewrite Z.sub_diag. exact I.
  - intros x d H. apply zero_or_nan_b64 in H. apply zero_or_nan_b64.
    rewrite div_spec.
    destruct (Prim2SF x) as [s|s| |s m e]; simpl in H; try contradiction;
      destruct (Prim2SF d); simpl; exact I.
  - intros x k H. apply zero_or_nan_b64 in H. apply zero_or_nan_b64.
    rewrite mul_spec.
    destruct (Prim2SF x) as [s|s| |s m e]; simpl in H; try contradiction;
      destruct (Prim2SF k); simpl; exact I.
  - intros x H. apply zero_or_nan_b64 in H. apply zero_or_nan_b64.
    unfold B64.rint.
    destruct (Prim2SF x) as [s|s| |s m e] eqn:E; simpl in H;
      try contradiction; rewrite E; exact I.
  - intros x H. apply zero_or_nan_b64 in H. unfold B64.astype_int.
    destruct (Prim2SF x) as [s|s| |s m e]; simpl in H; try contradiction.
    + lia.
    + unfold B64.int64_min. lia.
Qed.
End B64Laws.

Module ExactLaws.
Open Scope R_scope.

Lemma zero_or_nan_exact (x : Exact.xreal) :
  zero_or_nan x <-> x = None \/ x = Some 0.
Proof.
  unfold zero_or_nan, is_zero. cbn [is_nan leb of_int Exact.arith].
  destruct x as [x|]; simpl; [|tauto].
  destruct (Rle_dec x 0), (Rle_dec 0 x); simpl; split; intros [H|H];
    try discriminate; try (injection H as H); try lra.
  right. f_equal. lra.
Qed.

Lemma floor_IZR (z : Z) : Exact.floor (IZR z) = z.
Proof.
  unfold Exact.floor.
  assert (up (IZR z) = (z + 1)%Z) as ->; [|lia].
  symmetry. apply tech_up; rewrite plus_IZR; simpl; lra.
Qed.

Lemma nearest_even_IZR (z : Z) : Exact.nearest_even (IZR z) = z.
Proof.
  unfold Exact.nearest_even. rewrite floor_IZR.
  destruct (Rlt_dec (IZR z - IZR z) (1 / 2)); [reflexivity|lra].
Qed.

Lemma truncate_IZR (z : Z) : Exact.truncate (IZR z) = z.
Proof.
  unfold Exact.truncate. destruct (Rle_dec 0 (IZR z)).
  - apply floor_IZR.
  - rewrite <- opp_IZR, floor_IZR. lia.
Qed.

#[global] Instance laws : ZeroLaws Exact.arith.
Proof.
  split; intros x; [|intros d|intros k| |]; rewrite ?zero_or_nan_exact;
    cbn [sub div mul rint astype_int Exact.arith].
  - destruct x as [x|]; simpl; [right|now left]. f_equal. lra.
  - intros [->| ->]; destruct d as [d|]; simpl; try (now left).
    destruct (Req_dec_T d 0); [now left|right]. f_equal.
    unfold Rdiv. apply Rmult_0_l.
  - intros [->| ->]; destruct k as [k|]; simpl; try (now left).
    right. f_equal. apply Rmult_0_l.
  - intros [->| ->]; simpl; [now left|right].
    f_equal. now rewrite (nearest_even_IZR 0).
  - intros [->| ->]; simpl; [unfold B64.int64_min; lia|].
    rewrite (truncate_IZR 0). lia.
Qed.
End ExactLaws.


Section FirstElement.
Context {F : Type} {A : Arith F} {L : ZeroLaws A}.
Variable ppf : F -> F.

(** [v.min()] is [v[0]] itself when [v[0]] is the least element. *)
Lemma fold_minimum_first (r : list F) (v0 : F) :
  Forall (fun vi => leb v0 vi = true) r -> fold_left minimum r v0 = v0.
Proof.
  induction 1 as [|vi r Hvi _ IH]; simpl; [reflexivity|].
  unfold minimum at 2. rewrite Hvi. simpl. exact IH.
Qed.

Lemma clip_zero_or_below (x hi : Z) :
  (x <= 0)%Z -> (0 <= hi)%Z -> clip1_int 0 hi x = 0%Z.
Proof. unfold clip1_int. lia. Qed.

Lemma rescale_first_is_zero (v0 : F) (r : list F) (num_steps : Z) :
  (1 <= num_steps)%Z ->
  first_is_least (v0 :: r) ->
  exists t0 t,
    rescale (v0 :: r) num_steps = Ok (t0 :: t) /\ zero_or_nan t0.
Proof.
  intros Hn Hv. unfold rescale. simpl.
  rewrite (@fold_minimum_first r v0 Hv).
  eexists. eexists. split; [reflexivity|].
  apply mul_zero, div_zero, sub_diag.
Qed.
End FirstElement.

(** ** The stages in exact arithmetic *)

Module ExactRun.
Open Scope R_scope.
Import Exact.


Lemma eps_bounds : 0 < eps < 1 / 2.
Proof. unfold eps. lra. Qed.

Lemma clipR_range (x : R) : eps <= clipR x <= 1 - eps.
Proof.
  pose proof eps_bounds. unfold clipR.
  destruct (Rlt_dec eps x); destruct (Rlt_dec _ (1 - eps)); lra.
Qed.

Lemma clipR_monotone (x y : R) : x <= y -> clipR x <= clipR y.
Proof.
  pose proof eps_bounds. intros Hxy. unfold clipR.
  destruct (Rlt_dec eps x); destruct (Rlt_dec eps y);
    repeat match goal with |- context [Rlt_dec ?a ?b] => destruct (Rlt_dec a b) end;
    lra.
Qed.

Lemma clipR_mirror (x : R) : clipR (1 - x) = 1 - clipR x.
Proof.
  pose proof eps_bounds. unfold clipR.
  destruct (Rlt_dec eps x); destruct (Rlt_dec eps (1 - x));
    repeat match goal with |- context [Rlt_dec ?a ?b] => destruct (Rlt_dec a b) end;
    lra.
Qed.

Lemma clipR_zero : clipR 0 = eps.
Proof.
  pose proof eps_bounds. unfold clipR.
  destruct (Rlt_dec eps 0); [lra|]. destruct (Rlt_dec eps (1 - eps)); lra.
Qed.

Lemma clipR_one : clipR 1 = 1 - eps.
Proof.
  pose proof eps_bounds. unfold clipR.
  destruct (Rlt_dec eps 1); [|lra]. destruct (Rlt_dec 1 (1 - eps)); lra.
Qed.

Lemma clip1_exact (x : R) :
  clip1 (Some eps) (Some (1 - eps)) (Some x) = Some (clipR x).
Proof.
  unfold clip1, clipR. cbn [is_nan ltb arith xis_nan xltb].
  destruct (Rlt_dec eps x); cbn [xis_nan xltb];
    match goal with |- context [Rlt_dec ?a ?b] => destruct (Rlt_dec a b) end;
    reflexivity.
Qed.

Section Fractions.
Variable n : Z.
Hypothesis n_ge_2 : (2 <= n)%Z.

Lemma steps_positive : 0 < IZR (n - 1).
Proof. apply IZR_lt. lia. Qed.

Lemma fraction_first : fraction n 0 = 0.
Proof. unfold fraction. simpl. lra. Qed.

Lemma fraction_last : fraction n (Z.to_nat n - 1) = 1.
Proof.
  pose proof steps_positive. unfold fraction.
  replace (Z.of_nat (Z.to_nat n - 1)) with (n - 1)%Z by lia.
  field. lra.
Qed.

Lemma fraction_monotone (i j : nat) :
  (i <= j)%nat -> fraction n i <= fraction n j.
Proof.
  pose proof steps_positive as Hp. intros Hij. unfold fraction.
  assert (IZR (Z.of_nat i) <= IZR (Z.of_nat j)) by (apply IZR_le; lia).
  assert (0 < (1 - 0) / IZR (n - 1)).
  { apply Rdiv_lt_0_compat; lra. }
  apply Rplus_le_compat_r, Rmult_le_compat_r; lra.
Qed.

Lemma fraction_mirror (k : nat) :
  (k < Z.to_nat n)%nat ->
  fraction n (Z.to_nat n - 1 - k) = 1 - fraction n k.
Proof.
  pose proof steps_positive. intros Hk. unfold fraction.
  replace (Z.of_nat (Z.to_nat n - 1 - k)) with (n - 1 - Z.of_nat k)%Z by lia.
  rewrite !minus_IZR. field. rewrite minus_IZR in H. simpl in H. lra.
Qed.

Lemma set_last_same (f : nat -> xreal) (len : nat) :
  set_last (f len) (map f (seq 0 (S len))) = map f (seq 0 (S len)).
Proof.
  rewrite seq_S, map_app. simpl map at 2. simpl Nat.add.
  unfold set_last.
  destruct (map f (seq 0 len) ++ [f len]) eqn:E.
  - destruct (map f (seq 0 len)); discriminate.
  - rewrite <- E. now rewrite removelast_last.
Qed.

Lemma linspace_exact :
  linspace (of_int 0) (of_int 1) n
  = Ok (map (fun k => Some (fraction n k)) (seq 0 (Z.to_nat n))).
Proof.
  pose proof steps_positive as Hp.
  unfold linspace. cbn [of_int sub div mul add arith].
  destruct (Z.ltb_spec n 0); [lia|].
  destruct (Z.ltb_spec 0 (n - 1)); [|lia].
  destruct (Z.ltb_spec 1 n); [|lia].
  assert (Hstep : is_zero (xdiv (Some (1 - 0)) (Some (IZR (n - 1)))) = false).
  { unfold is_zero. cbn [div leb of_int arith xdiv xleb].
    destruct (Req_dec_T (IZR (n - 1)) 0); [lra|].
    assert (0 < (1 - 0) / IZR (n - 1)) by (apply Rdiv_lt_0_compat; lra).
    unfold xleb at 1.
    destruct (Rle_dec ((1 - 0) / IZR (n - 1)) 0); [lra|reflexivity]. }
  cbn [lift2]. rewrite Hstep.
  unfold arange. rewrite !map_map. cbn [lift2 xdiv].
  destruct (Req_dec_T (IZR (n - 1)) 0); [lra|]. cbn [lift2].
  f_equal.
  replace (Z.to_nat n) with (S (Z.to_nat n - 1)) by lia.
  replace (Some 1) with (Some (fraction n (Z.to_nat n - 1)))
    by (now rewrite fraction_last).
  exact (set_last_same (fun k => Some (fraction n k)) (Z.to_nat n - 1)).
Qed.
End Fractions.

Lemma clipped_fractions_exact (n : Z) :
  (2 <= n)%Z ->
  clipped_fractions n
  = Ok (map (fun k => Some (clipR (fraction n k))) (seq 0 (Z.to_nat n))).
Proof.
  intros Hn. unfold clipped_fractions. rewrite linspace_exact by assumption.
  simpl bind. unfold clip. rewrite map_map. f_equal.
  apply map_ext. intros k. cbn [finfo_eps sub of_int arith lift2].
  apply clip1_exact.
Qed.

Lemma warp_exact (phi : R -> R) (m s : R) (c : nat -> R) (l : list nat) :
  warp (lift phi) (Some m) (Some s) (map (fun k => Some (c k)) l)
  = map Some (map (fun k => m + s * phi (c k)) l).
Proof.
  unfold warp. rewrite !map_map. apply map_ext. intros k. reflexivity.
Qed.

(** [v.min()] and [v.max()] of an array of reals. *)
Lemma fold_minimum_exact (r : list R) :
  forall x : R,
    exists mn, fold_left minimum (map Some r) (Some x) = Some mn
               /\ mn <= x /\ (forall y, In y r -> mn <= y)
               /\ (mn = x \/ In mn r).
Proof.
  induction r as [|a r IH]; intros x; simpl.
  - exists x. repeat split; [lra|intros y []|now left].
  - unfold minimum at 2. cbn [leb is_nan arith xleb xis_nan].
    destruct (Rle_dec x a) as [Hxa|Hxa]; simpl orb; cbv iota.
    + destruct (IH x) as [mn [E [H1 [H2 H3]]]]. exists mn.
      split; [exact E|]. split; [exact H1|]. split.
      * intros y [<-|Hy]; [lra|auto].
      * destruct H3; [now left|right; now right].
    + destruct (IH a) as [mn [E [H1 [H2 H3]]]]. exists mn.
      split; [exact E|]. split; [lra|]. split.
      * intros y [<-|Hy]; [lra|auto].
      * right. destruct H3; [now left|now right].
Qed.

Lemma fold_maximum_exact (r : list R) :
  forall x : R,
    exists mx, fold_left maximum (map Some r) (Some x) = Some mx
               /\ x <= mx /\ (forall y, In y r -> y <= mx)
               /\ (mx = x \/ In mx r).
Proof.
  induction r as [|a r IH]; intros x; simpl.
  - exists x. repeat split; [lra|intros y []|now left].
  - unfold maximum at 2. cbn [leb is_nan arith xleb xis_nan].
    destruct (Rle_dec a x) as [Hxa|Hxa]; simpl orb; cbv iota.
    + destruct (IH x) as [mx [E [H1 [H2 H3]]]]. exists mx.
      split; [exact E|]. split; [exact H1|]. split.
      * intros y [<-|Hy]; [lra|auto].
      * destruct H3; [now left|right; now right].
    + destruct (IH a) as [mx [E [H1 [H2 H3]]]]. exists mx.
      split; [exact E|]. split; [lra|]. split.
      * intros y [<-|Hy]; [lra|auto].
      * right. destruct H3; [now left|now right].
Qed.


Lemma rescale_exact (n : Z) (x : R) (r : list R) :
  exists mn mx,
    amin (map Some (x :: r)) = Ok (Some mn)
    /\ amax (map Some (x :: r)) = Ok (Some mx)
    /\ (forall y, In y (x :: r) -> mn <= y <= mx)
    /\ In mn (x :: r) /\ In mx (x :: r)
    /\ rescale (map Some (x :: r)) n
       = Ok (map (scaled n mn mx) (x :: r)).
Proof.
  destruct (fold_minimum_exact r x) as [mn [Emn [Hmn1 [Hmn2 Hmn3]]]].
  destruct (fold_maximum_exact r x) as [mx [Emx [Hmx1 [Hmx2 Hmx3]]]].
  exists mn, mx. unfold rescale, amin, amax.
  cbn [map]. rewrite Emn, Emx. cbn [bind].
  repeat split; try reflexivity.
  - destruct H as [<-|Hy]; [lra|auto].
  - destruct H as [<-|Hy]; [lra|auto].
  - destruct Hmn3 as [->|H]; [now left|now right].
  - destruct Hmx3 as [->|H]; [now left|now right].
  - assert (Hs : forall v,
               mul (div (sub (Some v) (Some mn)) (sub (Some mx) (Some mn)))
                   (of_int (n - 1)) = scaled n mn mx v).
    { intros v. unfold scaled. cbn [sub div mul of_int arith lift2 xdiv].
      destruct (Req_dec_T (mx - mn) 0); reflexivity. }
    cbn [map]. rewrite map_map, Hs.
    rewrite (map_ext _ _ Hs). reflexivity.
Qed.

(** *** The mean shift

    In exact arithmetic the reductions and the subtractions of stage 4
    commute with the addition of [m]. *)

Lemma minimum_shift (m : R) (a b : xreal) :
  minimum (add (Some m) a) (add (Some m) b) = add (Some m) (minimum a b).
Proof.
  unfold minimum. cbn [add leb is_nan arith].
  destruct a as [a|], b as [b|]; simpl; try reflexivity.
  destruct (Rle_dec (m + a) (m + b)), (Rle_dec a b); simpl;
    try reflexivity; lra.
Qed.

Lemma maximum_shift (m : R) (a b : xreal) :
  maximum (add (Some m) a) (add (Some m) b) = add (Some m) (maximum a b).
Proof.
  unfold maximum. cbn [add leb is_nan arith].
  destruct a as [a|], b as [b|]; simpl; try reflexivity.
  destruct (Rle_dec (m + b) (m + a)), (Rle_dec b a); simpl;
    try reflexivity; lra.
Qed.

Lemma fold_minimum_shift (m : R) (r : list xreal) :
  forall x,
    fold_left minimum (map (add (Some m)) r) (add (Some m) x)
    = add (Some m) (fold_left minimum r x).
Proof.
  induction r as [|a r IH]; intros x; cbn [map fold_left]; [reflexivity|].
  now rewrite minimum_shift, IH.
Qed.

Lemma fold_maximum_shift (m : R) (r : list xreal) :
  forall x,
    fold_left maximum (map (add (Some m)) r) (add (Some m) x)
    = add (Some m) (fold_left maximum r x).
Proof.
  induction r as [|a r IH]; intros x; cbn [map fold_left]; [reflexivity|].
  now rewrite maximum_shift, IH.
Qed.

Lemma sub_shift (m : R) (a b : xreal) :
  sub (add (Some m) a) (add (Some m) b) = sub a b.
Proof.
  cbn [add sub arith]. destruct a as [a|], b as [b|]; simpl; try reflexivity.
  apply f_equal. lra.
Qed.

Lemma rescale_shift (m : R) (w : list xreal) (n : Z) :
  rescale (map (add (Some m)) w) n = rescale w n.
Proof.
  destruct w as [|x r]; [reflexivity|].
  unfold rescale, amin, amax. cbn [map bind].
  rewrite fold_minimum_shift, fold_maximum_shift, !sub_shift.
  apply f_equal. apply f_equal. rewrite map_map. apply map_ext.
  intros v. now rewrite sub_shift.
Qed.

Lemma continuous_timesteps_shift (ppf : xreal -> xreal) (n : Z) (m : R)
    (s : xreal) :
  continuous_timesteps ppf n (Some m) s
  = (u <- clipped_fractions n ;; rescale (map (fun ui => mul s (ppf ui)) u) n).
Proof.
  unfold continuous_timesteps. destruct (clipped_fractions n) as [u|e];
    [|reflexivity].
  cbn [bind].
  rewrite <- (rescale_shift m (map (fun ui => mul s (ppf ui)) u)).
  unfold warp. now rewrite map_map.
Qed.

(** *** Rounding *)

Lemma floor_spec (x : R) : IZR (floor x) <= x < IZR (floor x) + 1.
Proof.
  unfold floor. rewrite minus_IZR. destruct (archimed x). simpl. lra.
Qed.

Lemma floor_monotone (x y : R) : x <= y -> (floor x <= floor y)%Z.
Proof.
  intros Hxy. pose proof (floor_spec x). pose proof (floor_spec y).
  assert (IZR (floor x) < IZR (floor y + 1)) by (rewrite plus_IZR; simpl; lra).
  apply lt_IZR in H1. lia.
Qed.

Lemma nearest_even_near (x : R) :
  (floor x <= nearest_even x <= floor x + 1)%Z.
Proof.
  unfold nearest_even.
  destruct (Rlt_dec (x - IZR (floor x)) (1 / 2)); [lia|].
  destruct (Rlt_dec (1 / 2) (x - IZR (floor x))); [lia|].
  destruct (Z.even (floor x)); lia.
Qed.

Lemma nearest_even_monotone (x y : R) :
  x <= y -> (nearest_even x <= nearest_even y)%Z.
Proof.
  intros Hxy. pose proof (floor_monotone Hxy) as Hf.
  pose proof (nearest_even_near x). pose proof (nearest_even_near y).
  destruct (Z.eq_dec (floor x) (floor y)) as [E|E]; [|lia].
  unfold nearest_even. rewrite E.
  destruct (Rlt_dec (x - IZR (floor y)) (1 / 2));
    destruct (Rlt_dec (y - IZR (floor y)) (1 / 2)); try lia; try lra.
  - destruct (Rlt_dec (1 / 2) (y - IZR (floor y))); [lia|].
    destruct (Z.even (floor y)); lia.
  - destruct (Rlt_dec (1 / 2) (x - IZR (floor y)));
      destruct (Rlt_dec (1 / 2) (y - IZR (floor y))); try lia; try lra.
    destruct (Z.even (floor y)); lia.
Qed.


Lemma nth_map_seq (f : nat -> Z) (len i : nat) :
  (i < len)%nat -> nth i (map f (seq 0 len)) 0%Z = f i.
Proof.
  intros Hi. rewrite (nth_indep _ 0%Z (f 0%nat)) by now rewrite length_map, length_seq.
  rewrite map_nth, seq_nth by assumption. reflexivity.
Qed.

Lemma non_decreasing_map_seq (f : nat -> Z) (len : nat) :
  (forall i j : nat, (i <= j)%nat -> (f i <= f j)%Z) ->
  non_decreasing (map f (seq 0 len)).
Proof.
  intros Hf i Hi. rewrite length_map, length_seq in Hi.
  rewrite !nth_map_seq by lia. apply Hf. lia.
Qed.

(** *** Stage 4 on a non-decreasing array *)

Lemma rescale_monotone (n : Z) (v : nat -> R) (last : nat) :
  (forall i j : nat, (i <= j)%nat -> v i <= v j) ->
  rescale (map Some (map v (seq 0 (S last)))) n
  = Ok (map (fun k => scaled n (v 0%nat) (v last) (v k)) (seq 0 (S last))).
Proof.
  intros Hv. cbn [seq map].
  destruct (rescale_exact n (v 0%nat) (map v (seq 1 last)))
    as [mn [mx [_ [_ [Hb [Hmn [Hmx E]]]]]]].
  change (v 0%nat :: map v (seq 1 last)) with (map v (seq 0 (S last))) in *.
  apply in_map_iff in Hmn. destruct Hmn as [i [Hi Hin]].
  apply in_map_iff in Hmx. destruct Hmx as [j [Hj Hjn]].
  apply in_seq in Hin. apply in_seq in Hjn.
  assert (H0 : mn <= v 0%nat <= mx).
  { apply Hb. apply in_map_iff. exists 0%nat. split; [reflexivity|].
    apply in_seq. lia. }
  assert (Hl : mn <= v last <= mx).
  { apply Hb. apply in_map_iff. exists last. split; [reflexivity|].
    apply in_seq. lia. }
  assert (mn = v 0%nat) as ->.
  { pose proof (Hv 0%nat i). apply Rle_antisym; [lra|]. rewrite <- Hi. apply H. lia. }
  assert (mx = v last) as ->.
  { pose proof (Hv j last). apply Rle_antisym; [|lra]. rewrite <- Hj. apply H. lia. }
  cbn [seq map] in E. rewrite E. cbn [seq map]. rewrite map_map. reflexivity.
Qed.

(** *** Stages 1 to 4 for a real [ppf] *)


Lemma increasing_non_decreasing (phi : R -> R) :
  increasing phi -> non_decreasing_on_unit phi.
Proof.
  intros H x y Hx Hxy Hy. destruct (Req_dec_T x y) as [->|Hne]; [lra|].
  apply Rlt_le, H; lra.
Qed.

Lemma continuous_timesteps_exact (phi : R -> R) (n : Z) (m s : R) :
  (2 <= n)%Z ->
  continuous_timesteps (lift phi) n (Some m) (Some s)
  = rescale (map Some (map (warped phi n m s) (seq 0 (Z.to_nat n)))) n.
Proof.
  intros Hn. unfold continuous_timesteps.
  rewrite clipped_fractions_exact by assumption. cbn [bind].
  rewrite (warp_exact phi m s (fun k => clipR (fraction n k))).
  reflexivity.
Qed.

Lemma warped_first (phi : R -> R) (n : Z) (m s : R) :
  (2 <= n)%Z -> warped phi n m s 0 = m + s * phi eps.
Proof.
  intros Hn. unfold warped. now rewrite fraction_first, clipR_zero.
Qed.

Lemma warped_last (phi : R -> R) (n : Z) (m s : R) :
  (2 <= n)%Z -> warped phi n m s (Z.to_nat n - 1) = m + s * phi (1 - eps).
Proof.
  intros Hn. unfold warped. now rewrite fraction_last, clipR_one.
Qed.

Lemma warped_monotone (phi : R -> R) (n : Z) (m s : R) :
  (2 <= n)%Z -> 0 < s -> non_decreasing_on_unit phi ->
  forall i j : nat, (i <= j)%nat -> warped phi n m s i <= warped phi n m s j.
Proof.
  intros Hn Hs Hphi i j Hij. unfold warped.
  pose proof eps_bounds.
  pose proof (clipR_range (fraction n i)).
  pose proof (clipR_range (fraction n j)).
  assert (clipR (fraction n i) <= clipR (fraction n j))
    by (apply clipR_monotone, fraction_monotone; assumption).
  assert (phi (clipR (fraction n i)) <= phi (clipR (fraction n j)))
    by (apply Hphi; lra).
  apply Rplus_le_compat_l, Rmult_le_compat_l; lra.
Qed.

Lemma warped_mirror (phi : R -> R) (n : Z) (s : R) (k : nat) :
  (2 <= n)%Z -> odd_about_half phi -> (k < Z.to_nat n)%nat ->
  warped phi n 0 s (Z.to_nat n - 1 - k) = - warped phi n 0 s k.
Proof.
  intros Hn Hodd Hk. unfold warped.
  rewrite fraction_mirror, clipR_mirror, Hodd by assumption. lra.
Qed.

(** With a non-decreasing [ppf] and a positive scale, the first warped
    value is the least one. *)
Lemma first_is_least_exact (phi : R -> R) (n : Z) (m s : R) (u : list xreal) :
  (2 <= n)%Z -> 0 < s -> non_decreasing_on_unit phi ->
  clipped_fractions n = Ok u ->
  first_is_least (warp (lift phi) (Some m) (Some s) u).
Proof.
  intros Hn Hs Hphi Hu.
  rewrite clipped_fractions_exact in Hu by assumption.
  injection Hu as <-.
  rewrite (warp_exact phi m s (fun k => clipR (fraction n k))).
  fold (warped phi n m s).
  replace (Z.to_nat n) with (S (Z.to_nat n - 1)) by lia.
  cbn [seq map first_is_least].
  apply Forall_forall. intros vi Hvi.
  apply in_map_iff in Hvi. destruct Hvi as [x [<- Hx]].
  apply in_map_iff in Hx. destruct Hx as [k [<- Hk]].
  cbn [leb arith xleb].
  pose proof (@warped_monotone phi n m s Hn Hs Hphi 0%nat k) as Hle.
  destruct (Rle_dec (warped phi n m s 0) (warped phi n m s k)) as [_|Hno];
    [reflexivity|].
  exfalso. apply Hno, Hle. lia.
Qed.

Lemma rescale_denominator_exact (phi : R -> R) (n : Z) (m s : R) :
  (2 <= n)%Z ->
  exists mn mx : R,
    rescale_denominator (lift phi) n (Some m) (Some s) = Ok (Some (mx - mn))
    /\ mn <= warped phi n m s 0 <= mx
    /\ mn <= warped phi n m s (Z.to_nat n - 1) <= mx.
Proof.
  intros Hn. unfold rescale_denominator.
  rewrite clipped_fractions_exact by assumption. cbn [bind].
  rewrite (warp_exact phi m s (fun k => clipR (fraction n k))).
  fold (warped phi n m s).
  assert (E : seq 0 (Z.to_nat n) = 0%nat :: seq 1 (Z.to_nat n - 1)).
  { replace (Z.to_nat n) with (S (Z.to_nat n - 1)) at 1 by lia. reflexivity. }
  rewrite E. cbn [map].
  destruct (rescale_exact n (warped phi n m s 0)
              (map (warped phi n m s) (seq 1 (Z.to_nat n - 1))))
    as [mn [mx [Emn [Emx [Hb _]]]]].
  exists mn, mx. cbn [map] in Emn, Emx. rewrite Emn, Emx. cbn [bind].
  split; [reflexivity|].
  change (warped phi n m s 0 :: map (warped phi n m s) (seq 1 (Z.to_nat n - 1)))
    with (map (warped phi n m s) (0%nat :: seq 1 (Z.to_nat n - 1))) in Hb.
  rewrite <- E in Hb.
  split; apply Hb; apply in_map_iff.
  - exists 0%nat. split; [reflexivity|]. apply in_seq. lia.
  - exists (Z.to_nat n - 1)%nat. split; [reflexivity|]. apply in_seq. lia.
Qed.
End ExactRun.

(** ** The divisor of stage 4 *)

(** C8, as the code has it. With [s = 0], a scale that the function
    accepts, every warped value is [m + 0 * ppf(u)], so [v.max()] and
    [v.min()] coincide although [num_steps = 2]: on binary64 the divisor
    of stage 4 is then 0.  It is 0 as well with [s = 0.5] and [m = 1e17],
    where the additions of stage 3 round both warped values to [1e17]. *)
Lemma zero_scale_zero_denominator :
  (2 <= 2)%Z
  /\ rescale_denominator B64.ppf_table 2 0%float 0%float = Ok 0%float
  /\ rescale_denominator B64.ppf_table 2 1e17%float 0.5%float = Ok 0%float.
Proof. split; [lia|]. split; vm_compute; reflexivity. Qed.

(** C8, amended. In exact arithmetic, for every [num_steps >= 2], every
    real [m] and every real scale [s] other than 0, with an increasing
    [ppf], the divisor [max(v) - min(v)] of stage 4 is a real number
    other than 0. *)
Theorem rescale_denominator_nonzero :
  forall (phi : R -> R) (num_steps : Z) (m s : R),
    (2 <= num_steps)%Z -> s <> 0%R -> Exact.increasing phi ->
    exists d : R,
      rescale_denominator (Exact.lift phi) num_steps (Some m) (Some s)
      = Ok (Some d)
      /\ d <> 0%R.
Proof.
  intros phi n m s Hn Hs Hphi.
  destruct (ExactRun.rescale_denominator_exact phi m s Hn)
    as [mn [mx [E [H0 Hl]]]].
  exists (mx - mn)%R. split; [exact E|].
  rewrite ExactRun.warped_first in H0 by assumption.
  rewrite ExactRun.warped_last in Hl by assumption.
  pose proof ExactRun.eps_bounds as He.
  assert (Hlt : (phi Exact.eps < phi (1 - Exact.eps))%R)
    by (apply Hphi; lra).
  intros Hd.
  assert (Hz : (s * (phi (1 - Exact.eps) - phi Exact.eps) = 0)%R) by lra.
  apply Rmult_integral in Hz. destruct Hz; lra.
Qed.

Lemma rescale_denominator_nonzero_witness :
  (2 <= 2)%Z /\ 1%R <> 0%R /\ Exact.increasing (fun x => x - 1 / 2)%R
  /\ exists d : R,
       rescale_denominator (Exact.lift (fun x => x - 1 / 2)%R) 2
         (Some 0%R) (Some 1%R) = Ok (Some d)
       /\ d <> 0%R.
Proof.
  assert (H2 : (2 <= 2)%Z) by lia.
  assert (H1 : 1%R <> 0%R) by lra.
  assert (Hphi : Exact.increasing (fun x => x - 1 / 2)%R)
    by (intros x y _ Hxy _; lra).
  split; [exact H2|]. split; [exact H1|]. split; [exact Hphi|].
  exact (@rescale_denominator_nonzero (fun x => x - 1 / 2)%R 2%Z 0%R 1%R
           H2 H1 Hphi).
Defined.

(** ** The mean shift *)

(** C9, as the code has it. On binary64 the addition of stage 3 rounds:
    with [m = 1e17] the two warped values [1e17 - 4.06...] and
    [1e17 + 4.06...] are both rounded to [1e17], stage 4 divides 0 by 0,
    and the result is [[0, 0]], while [m = 0] gives [[0, 1]]. *)
Lemma mean_shift_changes_result :
  get_biased_timesteps B64.ppf_table 2 0%float 0.5%float = Ok [0; 1]%Z
  /\ get_biased_timesteps B64.ppf_table 2 1e17%float 0.5%float = Ok [0; 0]%Z.
Proof. split; vm_compute; reflexivity. Qed.

(** C9, amended. In exact arithmetic the result does not depend on the
    mean shift: for every [num_steps], every scale [s], every [ppf] and
    any two reals [m1] and [m2] the two calls give the same result, the
    subtractions of [min(v)] in stage 4 cancelling [m]. *)
Theorem mean_shift_cancels :
  forall (ppf : Exact.xreal -> Exact.xreal) (num_steps : Z) (m1 m2 : R)
         (s : Exact.xreal),
    get_biased_timesteps ppf num_steps (Some m1) s
    = get_biased_timesteps ppf num_steps (Some m2) s.
Proof.
  intros ppf n m1 m2 s.
  rewrite !get_biased_timesteps_stages. unfold rounded_timesteps.
  now rewrite !ExactRun.continuous_timesteps_shift.
Qed.

(** ** Symmetry of the continuous sequence *)

(** C7, as the code has it. On binary64 a large scale overflows: with
    [s = 2^1023] the warped values are the two infinities, and stage 4
    computes [-inf - -inf] and [inf / inf], so both elements of [t] are
    NaN and [t[0] + t[1]] is not [num_steps - 1]. *)
Lemma symmetry_fails_on_overflow :
  (2 <= 2)%Z /\ (0 <? 0x1p+1023)%float = true
  /\ continuous_timesteps B64.ppf_table 2 0%float 0x1p+1023%float
     = Ok [nan; nan]
  /\ (nan + nan =? B64.of_int (2 - 1))%float = false.
Proof.
  split; [lia|]. split; [reflexivity|]. split; vm_compute; reflexivity.
Qed.

(** C7, amended. In exact arithmetic, for [m = 0], every real [s > 0] and
    every [num_steps >= 2], with a [ppf] that is increasing and odd about
    1/2, the sequence [t] of stage 4 is a sequence of reals symmetric
    about [(num_steps - 1) / 2]:
    [t[i] + t[num_steps - 1 - i] = num_steps - 1] for every index [i]. *)
Theorem continuous_timesteps_symmetric :
  forall (phi : R -> R) (num_steps : Z) (s : R),
    (2 <= num_steps)%Z -> (0 < s)%R ->
    Exact.increasing phi -> Exact.odd_about_half phi ->
    exists t : nat -> R,
      continuous_timesteps (Exact.lift phi) num_steps (Some 0%R) (Some s)
      = Ok (map (fun i => Some (t i)) (seq 0 (Z.to_nat num_steps)))
      /\ forall i : nat, (i < Z.to_nat num_steps)%nat ->
           (t i + t (Z.to_nat num_steps - 1 - i)%nat = IZR (num_steps - 1))%R.
Proof.
  intros phi n s Hn Hs Hinc Hodd.
  pose proof (ExactRun.warped_monotone 0%R Hn Hs
                (ExactRun.increasing_non_decreasing Hinc)) as Hmono.
  set (v := Exact.warped phi n 0 s) in *.
  set (last := (Z.to_nat n - 1)%nat).
  pose proof ExactRun.eps_bounds as He.
  assert (Hden : (v last - v 0%nat <> 0)%R).
  { subst v last. rewrite ExactRun.warped_first, ExactRun.warped_last by assumption.
    assert (phi Exact.eps < phi (1 - Exact.eps))%R by (apply Hinc; lra).
    assert (0 < s * (phi (1 - Exact.eps) - phi Exact.eps))%R
      by (apply Rmult_lt_0_compat; lra).
    lra. }
  exists (fun i => ((v i - v 0%nat) / (v last - v 0%nat) * IZR (n - 1))%R).
  split.
  - rewrite ExactRun.continuous_timesteps_exact by assumption. fold v.
    replace (Z.to_nat n) with (S last) by (subst last; lia).
    rewrite (ExactRun.rescale_monotone n v last Hmono).
    apply f_equal. apply map_ext. intros k. unfold Exact.scaled.
    destruct (Req_dec_T (v last - v 0%nat) 0); [contradiction|reflexivity].
  - intros i Hi.
    assert (Hi' : v (last - i)%nat = (- v i)%R)
      by (apply ExactRun.warped_mirror; assumption).
    assert (H0 : v last = (- v 0%nat)%R).
    { subst last. replace (Z.to_nat n - 1)%nat with (Z.to_nat n - 1 - 0)%nat by lia.
      apply ExactRun.warped_mirror; try assumption. lia. }
    cbv beta. fold last. rewrite Hi'. rewrite H0 in Hden |- *. field. lra.
Qed.

Lemma continuous_timesteps_symmetric_witness :
  (2 <= 3)%Z /\ (0 < 1 / 2)%R
  /\ Exact.increasing (fun x => x - 1 / 2)%R
  /\ Exact.odd_about_half (fun x => x - 1 / 2)%R
  /\ exists t : nat -> R,
       continuous_timesteps (Exact.lift (fun x => x - 1 / 2)%R) 3
         (Some 0%R) (Some (1 / 2)%R)
       = Ok (map (fun i => Some (t i)) (seq 0 (Z.to_nat 3)))
       /\ forall i : nat, (i < Z.to_nat 3)%nat ->
            (t i + t (Z.to_nat 3 - 1 - i)%nat = IZR (3 - 1))%R.
Proof.
  assert (H3 : (2 <= 3)%Z) by lia.
  assert (Hs : (0 < 1 / 2)%R) by lra.
  assert (Hinc : Exact.increasing (fun x => x - 1 / 2)%R)
    by (intros x y _ Hxy _; lra).
  assert (Hodd : Exact.odd_about_half (fun x => x - 1 / 2)%R)
    by (intros x; lra).
  split; [exact H3|]. split; [exact Hs|]. split; [exact Hinc|].
  split; [exact Hodd|].
  exact (@continuous_timesteps_symmetric (fun x => x - 1 / 2)%R 3%Z (1 / 2)%R
           H3 Hs Hinc Hodd).
Defined.

(** ** The loop of stage 6 on an increasing warp *)



(** * Further properties of the code *)

(** ** The loop of stage 6 as a running maximum *)

Lemma forward_fill_nth (l : list Z) :
  forall (p : Z) (i : nat),
    (i < length l)%nat ->
    (p <= nth i (forward_fill p l) 0)%Z
    /\ (forall j : nat, (j <= i)%nat -> (nth j l 0 <= nth i (forward_fill p l) 0)%Z)
    /\ (nth i (forward_fill p l) 0%Z = p
        \/ exists j : nat, (j <= i)%nat /\ nth i (forward_fill p l) 0%Z = nth j l 0%Z).
Proof.
  induction l as [|x l IH]; intros p i Hi; simpl in Hi; [lia|].
  cbn [forward_fill]. set (y := if (x <? p)%Z then p else x).
  assert (Hy : (p <= y)%Z /\ (x <= y)%Z /\ (y = p \/ y = x))
    by (subst y; destruct (Z.ltb_spec x p); lia).
  destruct i as [|i]; cbn [nth].
  - split; [lia|]. split.
    + intros j Hj. assert (j = 0%nat) as -> by lia. simpl. lia.
    + destruct Hy as [_ [_ [E|E]]]; [now left|right].
      exists 0%nat. split; [lia|]. simpl. exact E.
  - destruct (IH y i) as [H1 [H2 H3]]; [lia|]. split; [lia|]. split.
    + intros [|j] Hj; cbn [nth]; [lia|]. apply H2. lia.
    + destruct H3 as [E|[j [Hj E]]].
      * destruct Hy as [_ [_ [E'|E']]]; [left; lia|right].
        exists 0%nat. split; [lia|]. simpl. lia.
      * right. exists (S j). split; [lia|]. exact E.
Qed.

(** X1. After the loop of stage 6 the cell [i] holds the maximum of the
    cells [0..i] of the array that entered the loop: it is at least each
    of them and it is one of them. *)
Theorem ensure_monotonic_running_maximum :
  forall (timesteps : list Z) (i : nat),
    (i < length timesteps)%nat ->
    (forall j : nat, (j <= i)%nat ->
       (nth j timesteps 0 <= nth i (ensure_monotonic timesteps) 0)%Z)
    /\ exists j : nat,
         (j <= i)%nat
         /\ nth i (ensure_monotonic timesteps) 0%Z = nth j timesteps 0%Z.
Proof.
  intros [|x r] i Hi; simpl in Hi; [lia|].
  rewrite ensure_monotonic_cons.
  destruct i as [|i]; cbn [nth].
  - split.
    + intros j Hj. assert (j = 0%nat) as -> by lia. simpl. lia.
    + exists 0%nat. split; [lia|reflexivity].
  - destruct (forward_fill_nth r x (i := i)) as [H1 [H2 H3]]; [lia|]. split.
    + intros [|j] Hj; cbn [nth]; [exact H1|]. apply H2. lia.
    + destruct H3 as [E|[j [Hj E]]].
      * exists 0%nat. split; [lia|]. simpl. exact E.
      * exists (S j). split; [lia|]. exact E.
Qed.

Lemma ensure_monotonic_running_maximum_witness :
  (3 < length [2; 0; 3; 1]%Z)%nat
  /\ (forall j : nat, (j <= 3)%nat ->
        (nth j [2; 0; 3; 1] 0 <= nth 3 (ensure_monotonic [2; 0; 3; 1]) 0)%Z)
  /\ exists j : nat,
       (j <= 3)%nat
       /\ nth 3 (ensure_monotonic [2; 0; 3; 1]%Z) 0%Z = nth j [2; 0; 3; 1]%Z 0%Z.
Proof.
  assert (H : (3 < length [2; 0; 3; 1]%Z)%nat) by (simpl; lia).
  split; [exact H|].
  exact (@ensure_monotonic_running_maximum [2; 0; 3; 1]%Z 3%nat H).
Defined.

(** X2. Running the loop of stage 6 a second time changes nothing. *)
Theorem ensure_monotonic_idempotent :
  forall timesteps : list Z,
    ensure_monotonic (ensure_monotonic timesteps) = ensure_monotonic timesteps.
Proof.
  intros ts. apply ensure_monotonic_fixed, ensure_monotonic_non_decreasing.
Qed.

(** ** Degenerate warps *)

Module B64Degenerate.
Open Scope float_scope.

Lemma SFleb_both (a b : spec_float) :
  SFleb a b = true -> SFleb b a = true ->
  (exists s s', a = S754_zero s /\ b = S754_zero s') \/ a = b.
Proof.
  unfold SFleb.
  destruct a as [s|s| |s m e], b as [s'|s'| |s' m' e'];
    try destruct s; try destruct s'; simpl; intros H1 H2;
    try discriminate; try (left; eauto; fail); try (right; reflexivity).
  - rewrite (Z.compare_antisym e e') in H2.
    destruct (e ?= e')%Z eqn:E; simpl in H1, H2; try discriminate.
    apply Z.compare_eq in E. subst e'.
    change (Pos.compare_cont Eq m m') with (Pos.compare m m') in H1.
    change (Pos.compare_cont Eq m' m) with (Pos.compare m' m) in H2.
    rewrite (Pos.compare_antisym m m') in H2.
    destruct (Pos.compare m m') eqn:E'; simpl in H1, H2; try discriminate.
    apply Pos.compare_eq in E'. subst m'. now right.
  - rewrite (Z.compare_antisym e e') in H2.
    destruct (e ?= e')%Z eqn:E; simpl in H1, H2; try discriminate.
    apply Z.compare_eq in E. subst e'.
    change (Pos.compare_cont Eq m m') with (Pos.compare m m') in H1.
    change (Pos.compare_cont Eq m' m) with (Pos.compare m' m) in H2.
    rewrite (Pos.compare_antisym m m') in H2.
    destruct (Pos.compare m m') eqn:E'; simpl in H1, H2; try discriminate.
    apply Pos.compare_eq in E'. subst m'. now right.
Qed.

Lemma same_b64 (a b : float) :
  same a b = true ->
  (exists s s', Prim2SF a = S754_zero s /\ Prim2SF b = S754_zero s') \/ a = b.
Proof.
  unfold same. cbn [leb B64.arith]. rewrite !leb_spec.
  intros H. apply andb_prop in H. destruct H as [H1 H2].
  destruct (SFleb_both _ _ H1 H2) as [H|H]; [now left|right].
  now apply Prim2SF_inj.
Qed.

Lemma same_refl_b64 (a : float) : Prim2SF a <> S754_nan -> same a a = true.
Proof.
  intros H. unfold same. cbn [leb B64.arith]. rewrite leb_spec.
  unfold SFleb. rewrite B64Laws.SFcompare_refl by assumption. reflexivity.
Qed.

Lemma is_zero_b64 (x : float) :
  is_zero x = true -> exists s, Prim2SF x = S754_zero s.
Proof.
  intros H.
  assert (Hz : zero_or_nan x) by (right; exact H).
  apply B64Laws.zero_or_nan_b64 in Hz.
  unfold is_zero in H. cbn [leb of_int B64.arith] in H.
  rewrite !leb_spec in H.
  destruct (Prim2SF x) as [s|s| |s m e]; simpl in Hz; try contradiction.
  - eauto.
  - discriminate.
Qed.

#[global] Instance laws : DegenerateLaws B64.arith.
Proof.
  split; cbn [add sub mul div rint astype_int is_nan B64.arith].
  - intros x y H. apply B64Laws.is_nan_spec in H. apply B64Laws.is_nan_spec.
    rewrite add_spec, H. reflexivity.
  - intros x y H. apply B64Laws.is_nan_spec in H. apply B64Laws.is_nan_spec.
    rewrite add_spec, H. destruct (Prim2SF x); reflexivity.
  - intros x y H. apply B64Laws.is_nan_spec in H. apply B64Laws.is_nan_spec.
    rewrite sub_spec, H. reflexivity.
  - intros x y H. apply B64Laws.is_nan_spec in H. apply B64Laws.is_nan_spec.
    rewrite sub_spec, H. destruct (Prim2SF x); reflexivity.
  - intros x y H. apply B64Laws.is_nan_spec in H. apply B64Laws.is_nan_spec.
    rewrite mul_spec, H. reflexivity.
  - intros x H. apply B64Laws.is_nan_spec in H. apply B64Laws.is_nan_spec.
    unfold B64.rint. rewrite H. exact H.
  - intros x H. apply B64Laws.is_nan_spec in H. unfold B64.astype_int.
    rewrite H. unfold B64.int64_min. lia.
  - intros a b c Ha Hb. apply B64Laws.zero_or_nan_b64. rewrite sub_spec.
    destruct (same_b64 _ _ Ha) as [[sa [sc [Ea Ec]]]|Ea];
      destruct (same_b64 _ _ Hb) as [[sb [sc' [Eb Ec']]]|Eb].
    + rewrite Ea, Eb. destruct sa, sb; exact I.
    + subst b. rewrite Ea, Ec. destruct sa, sc; exact I.
    + subst a. rewrite Eb, Ec'. destruct sc', sb; exact I.
    + subst a b. destruct (Prim2SF c) as [s|s| |s m e]; simpl; try exact I.
      * now destruct s.
      * now destruct s.
      * unfold SF64sub, SFsub. rewrite Z.sub_diag. exact I.
  - intros x d Hx Hd. apply B64Laws.zero_or_nan_b64 in Hx, Hd.
    apply B64Laws.is_nan_spec. rewrite div_spec.
    destruct (Prim2SF x) as [s|s| |s m e]; simpl in Hx; try contradiction;
      destruct (Prim2SF d) as [s'|s'| |s' m' e']; simpl in Hd;
      try contradiction; reflexivity.
  - intros s x Hs. destruct (is_zero_b64 _ Hs) as [ss Es].
    apply B64Laws.zero_or_nan_b64. rewrite mul_spec, Es.
    destruct (Prim2SF x); simpl; exact I.
  - intros m z Hz. apply B64Laws.zero_or_nan_b64 in Hz.
    destruct (Prim2SF z) as [sz|sz| |sz mz ez] eqn:Ez; simpl in Hz;
      try contradiction.
    + destruct (Prim2SF m) as [sm|sm| |sm mm em] eqn:Em.
      * right. unfold same. cbn [leb B64.arith].
        rewrite !leb_spec, add_spec, Ez, Em. now destruct sm, sz.
      * right. assert (m + z = m) as ->.
        { apply Prim2SF_inj. rewrite add_spec, Ez, Em. reflexivity. }
        apply same_refl_b64. rewrite Em. discriminate.
      * left. apply B64Laws.is_nan_spec. rewrite add_spec, Em. reflexivity.
      * right. assert (m + z = m) as ->.
        { apply Prim2SF_inj. rewrite add_spec, Ez, Em. reflexivity. }
        apply same_refl_b64. rewrite Em. discriminate.
    + left. apply B64Laws.is_nan_spec. rewrite add_spec, Ez.
      destruct (Prim2SF m); reflexivity.
Qed.
End B64Degenerate.

Module ExactDegenerate.
Open Scope R_scope.

Lemma same_exact (a b : Exact.xreal) :
  same a b = true <-> exists x : R, a = Some x /\ b = Some x.
Proof.
  unfold same. cbn [leb Exact.arith].
  destruct a as [a|], b as [b|]; simpl; split;
    try discriminate; try (intros [x [H1 H2]]; discriminate).
  - destruct (Rle_dec a b), (Rle_dec b a); try discriminate.
    intros _. exists a. split; [reflexivity|]. f_equal. lra.
  - intros [x [H1 H2]]. injection H1 as ->. injection H2 as ->.
    destruct (Rle_dec x x); [reflexivity|lra].
Qed.

#[global] Instance laws : DegenerateLaws Exact.arith.
Proof.
  split.
  - intros [x|] y H; [discriminate|reflexivity].
  - intros [x|] [y|] H; try discriminate; reflexivity.
  - intros [x|] y H; [discriminate|reflexivity].
  - intros [x|] [y|] H; try discriminate; reflexivity.
  - intros [x|] y H; [discriminate|reflexivity].
  - intros [x|] H; [discriminate|reflexivity].
  - intros [x|] H; [discriminate|]. simpl. unfold B64.int64_min. lia.
  - intros a b c Ha Hb. apply same_exact in Ha, Hb.
    destruct Ha as [x [-> Hc]], Hb as [y [-> Hc']].
    rewrite Hc in Hc'. injection Hc' as ->.
    apply ExactLaws.zero_or_nan_exact. right.
    cbn [sub Exact.arith Exact.lift2]. f_equal. lra.
  - intros x d Hx Hd. apply ExactLaws.zero_or_nan_exact in Hx, Hd.
    cbn [div is_nan Exact.arith].
    destruct Hx as [->| ->], Hd as [->| ->]; simpl; try reflexivity.
    destruct (Req_dec_T 0 0); [reflexivity|lra].
  - intros s x Hs.
    assert (Hz : zero_or_nan s) by (right; exact Hs).
    apply ExactLaws.zero_or_nan_exact in Hz.
    apply ExactLaws.zero_or_nan_exact.
    destruct Hz as [->| ->]; [now left|].
    destruct x as [x|]; [right|now left].
    cbn [mul Exact.arith Exact.lift2]. f_equal. lra.
  - intros m z Hz. apply ExactLaws.zero_or_nan_exact in Hz.
    destruct Hz as [->| ->]; destruct m as [m|];
      try (left; reflexivity).
    right. apply same_exact. exists m. split; [|reflexivity].
    cbn [add Exact.arith Exact.lift2]. f_equal. lra.
Qed.
End ExactDegenerate.

Section Degenerate.
Context {F : Type} {A : Arith F} {L : DegenerateLaws A}.
Variable ppf : F -> F.

Lemma fold_minimum_in (r : list F) :
  forall x, In (fold_left minimum r x) (x :: r).
Proof.
  induction r as [|a r IH]; intros x; simpl; [now left|].
  destruct (IH (minimum x a)) as [E|H]; [|right; now right].
  rewrite <- E. unfold minimum.
  destruct (leb x a || is_nan x); [now left|right; now left].
Qed.

Lemma fold_maximum_in (r : list F) :
  forall x, In (fold_left maximum r x) (x :: r).
Proof.
  induction r as [|a r IH]; intros x; simpl; [now left|].
  destruct (IH (maximum x a)) as [E|H]; [|right; now right].
  rewrite <- E. unfold maximum.
  destruct (leb a x || is_nan x); [now left|right; now left].
Qed.

Lemma sub_nan_or_same (c a b : F) :
  nan_or_same c a -> nan_or_same c b -> zero_or_nan (sub a b).
Proof.
  intros [Ha|Ha] [Hb|Hb].
  - left. now apply nan_sub_l.
  - left. now apply nan_sub_l.
  - left. now apply nan_sub_r.
  - exact (sub_same _ _ _ Ha Hb).
Qed.

(** Stage 4 on an array whose elements all are NaN or one same value:
    every quotient is NaN. *)
Lemma rescale_degenerate (c : F) (v : list F) (num_steps : Z) :
  v <> [] -> Forall (nan_or_same c) v ->
  exists t, rescale v num_steps = Ok t
            /\ length t = length v
            /\ Forall (fun x => is_nan x = true) t.
Proof.
  intros Hne Hv. destruct v as [|x r]; [congruence|].
  unfold rescale. cbn [amin amax bind].
  pose proof (fold_minimum_in r x) as Hmin.
  pose proof (fold_maximum_in r x) as Hmax.
  rewrite Forall_forall in Hv.
  eexists. split; [reflexivity|]. split; [now rewrite length_map|].
  apply Forall_forall. intros y Hy. apply in_map_iff in Hy.
  destruct Hy as [vi [<- Hvi]].
  apply nan_mul_l, zero_div_zero; eapply sub_nan_or_same; eauto.
Qed.

Lemma stage5_of_nan (t : list F) (hi : Z) :
  (0 <= hi)%Z -> Forall (fun x => is_nan x = true) t ->
  clip_int (round_astype_int t) 0 hi = repeat 0%Z (length t).
Proof.
  intros Hhi. induction 1 as [|x t Hx _ IH]; [reflexivity|].
  cbn [round_astype_int clip_int map length repeat].
  unfold clip_int, round_astype_int in IH. rewrite IH. f_equal.
  pose proof (nan_cast _ (nan_rint _ Hx)). unfold clip1_int. lia.
Qed.

Lemma forward_fill_repeat (z : Z) (k : nat) :
  forward_fill z (repeat z k) = repeat z k.
Proof.
  induction k as [|k IH]; [reflexivity|]. cbn [repeat forward_fill].
  rewrite Z.ltb_irrefl. now rewrite IH.
Qed.

Lemma ensure_monotonic_repeat (z : Z) (k : nat) :
  ensure_monotonic (repeat z k) = repeat z k.
Proof.
  destruct k as [|k]; [reflexivity|]. cbn [repeat].
  now rewrite ensure_monotonic_cons, forward_fill_repeat.
Qed.

(** A run whose warped values all are NaN or one same value. *)
Lemma degenerate_run (c : F) (num_steps : Z) (m s : F) :
  (1 <= num_steps)%Z ->
  (forall u, clipped_fractions num_steps = Ok u ->
             Forall (nan_or_same c) (warp ppf m s u)) ->
  get_biased_timesteps ppf num_steps m s
  = Ok (repeat 0%Z (Z.to_nat num_steps)).
Proof.
  intros Hn Hv.
  destruct (@clipped_fractions_length F A num_steps) as [u [Hu Hlen]]; [lia|].
  specialize (Hv u Hu).
  rewrite get_biased_timesteps_stages.
  unfold rounded_timesteps, continuous_timesteps. rewrite Hu. cbn [bind].
  destruct (@rescale_degenerate c (warp ppf m s u) num_steps)
    as [t [-> [Ht Hnan]]]; [|exact Hv|].
  - intros E. apply (f_equal (@length F)) in E.
    rewrite warp_length, Hlen in E. simpl in E. lia.
  - cbn [bind]. rewrite stage5_of_nan by (assumption || lia).
    rewrite ensure_monotonic_repeat, Ht, warp_length, Hlen. reflexivity.
Qed.
End Degenerate.

(** X3. When every warped value of stage 3 is NaN or equal to one same
    value [c] (no spread for stage 4 to rescale, as when a large [m]
    absorbs [s * ppf(u)]), the call returns [num_steps] zeros: stage 4
    divides a zero or NaN by a zero or NaN, and stage 5 casts the NaN
    and clips it to 0.  On binary64 and on exact arithmetic (every
    arithmetic with [DegenerateLaws]). *)
Theorem constant_warp_gives_zeros :
  forall (F : Type) (A : Arith F) (L : DegenerateLaws A) (ppf : F -> F)
         (c : F) (num_steps : Z) (m s : F),
    (1 <= num_steps)%Z ->
    (forall u, clipped_fractions num_steps = Ok u ->
               Forall (nan_or_same c) (warp ppf m s u)) ->
    get_biased_timesteps ppf num_steps m s
    = Ok (repeat 0%Z (Z.to_nat num_steps)).
Proof.
  intros F A L ppf c num_steps m s Hn Hv.
  exact (@degenerate_run F A L ppf c num_steps m s Hn Hv).
Qed.

Lemma constant_warp_gives_zeros_witness :
  (1 <= 3)%Z
  /\ (forall u, clipped_fractions (F := float) 3 = Ok u ->
        Forall (nan_or_same 1e17%float)
               (warp B64.ppf_table 1e17%float 0.5%float u))
  /\ get_biased_timesteps B64.ppf_table 3 1e17%float 0.5%float
     = Ok (repeat 0%Z (Z.to_nat 3)).
Proof.
  assert (H3 : (1 <= 3)%Z) by lia.
  assert (Hv : forall u, clipped_fractions (F := float) 3 = Ok u ->
                 Forall (nan_or_same 1e17%float)
                        (warp B64.ppf_table 1e17%float 0.5%float u)).
  { intros u Hu. vm_compute in Hu. injection Hu as <-.
    repeat constructor; right; vm_compute; reflexivity. }
  split; [exact H3|]. split; [exact Hv|].
  exact (@constant_warp_gives_zeros float B64.arith B64Degenerate.laws
           B64.ppf_table 1e17%float 3%Z 1e17%float 0.5%float H3 Hv).
Defined.

(** X4. With a zero scale ([s == 0], which the function accepts), for
    every [num_steps >= 1], every [m] and every [ppf], the call returns
    [num_steps] zeros, on binary64 and on exact arithmetic. *)
Theorem zero_scale_gives_zeros :
  forall (F : Type) (A : Arith F) (L : DegenerateLaws A) (ppf : F -> F)
         (num_steps : Z) (m s : F),
    (1 <= num_steps)%Z -> is_zero s = true ->
    get_biased_timesteps ppf num_steps m s
    = Ok (repeat 0%Z (Z.to_nat num_steps)).
Proof.
  intros F A L ppf num_steps m s Hn Hs.
  apply (@degenerate_run F A L ppf m num_steps m s Hn). intros u _.
  unfold warp. apply Forall_forall. intros vi Hvi.
  apply in_map_iff in Hvi. destruct Hvi as [ui [<- _]].
  apply add_zero, zero_mul, Hs.
Qed.

Lemma zero_scale_gives_zeros_witness :
  (1 <= 3)%Z /\ is_zero 0%float = true
  /\ get_biased_timesteps B64.ppf_table 3 2.5%float 0%float
     = Ok (repeat 0%Z (Z.to_nat 3)).
Proof.
  assert (H3 : (1 <= 3)%Z) by lia.
  assert (Hs : is_zero 0%float = true) by reflexivity.
  split; [exact H3|]. split; [exact Hs|].
  exact (@zero_scale_gives_zeros float B64.arith B64Degenerate.laws
           B64.ppf_table 3%Z 2.5%float 0%float H3 Hs).
Defined.

(** X5. With a NaN [m] or a NaN [s], for every [num_steps >= 1] and
    every [ppf], the call raises nothing and returns [num_steps] zeros,
    on binary64 and on exact arithmetic. *)
Theorem nan_parameter_gives_zeros :
  forall (F : Type) (A : Arith F) (L : DegenerateLaws A) (ppf : F -> F)
         (num_steps : Z) (m s : F),
    (1 <= num_steps)%Z -> is_nan m = true \/ is_nan s = true ->
    get_biased_timesteps ppf num_steps m s
    = Ok (repeat 0%Z (Z.to_nat num_steps)).
Proof.
  intros F A L ppf num_steps m s Hn Hp.
  apply (@degenerate_run F A L ppf m num_steps m s Hn). intros u _.
  unfold warp. apply Forall_forall. intros vi Hvi.
  apply in_map_iff in Hvi. destruct Hvi as [ui [<- _]]. left.
  destruct Hp as [Hm|Hs]; [now apply nan_add_l|].
  now apply nan_add_r, nan_mul_l.
Qed.

Lemma nan_parameter_gives_zeros_witness :
  (1 <= 3)%Z /\ (is_nan nan = true \/ is_nan 0.5%float = true)
  /\ get_biased_timesteps B64.ppf_table 3 nan 0.5%float
     = Ok (repeat 0%Z (Z.to_nat 3)).
Proof.
  assert (H3 : (1 <= 3)%Z) by lia.
  assert (Hp : is_nan nan = true \/ is_nan 0.5%float = true)
    by (left; reflexivity).
  split; [exact H3|]. split; [exact Hp|].
  exact (@nan_parameter_gives_zeros float B64.arith B64Degenerate.laws
           B64.ppf_table 3%Z nan 0.5%float H3 Hp).
Defined.

(** ** The parameters in exact arithmetic *)

Module ExactMore.
Open Scope R_scope.
Import Exact.

Lemma minimum_scale (s : R) (a b : xreal) :
  0 < s ->
  minimum (mul (Some s) a) (mul (Some s) b) = mul (Some s) (minimum a b).
Proof.
  intros Hs. unfold minimum. cbn [mul leb is_nan arith].
  destruct a as [a|], b as [b|]; simpl; try reflexivity.
  destruct (Rle_dec (s * a) (s * b)), (Rle_dec a b); simpl;
    try reflexivity; exfalso.
  - apply n. apply (Rmult_le_reg_l s); assumption.
  - apply n. apply Rmult_le_compat_l; lra.
Qed.

Lemma maximum_scale (s : R) (a b : xreal) :
  0 < s ->
  maximum (mul (Some s) a) (mul (Some s) b) = mul (Some s) (maximum a b).
Proof.
  intros Hs. unfold maximum. cbn [mul leb is_nan arith].
  destruct a as [a|], b as [b|]; simpl; try reflexivity.
  destruct (Rle_dec (s * b) (s * a)), (Rle_dec b a); simpl;
    try reflexivity; exfalso.
  - apply n. apply (Rmult_le_reg_l s); assumption.
  - apply n. apply Rmult_le_compat_l; lra.
Qed.

Lemma fold_minimum_scale (s : R) (r : list xreal) :
  0 < s ->
  forall x,
    fold_left minimum (map (mul (Some s)) r) (mul (Some s) x)
    = mul (Some s) (fold_left minimum r x).
Proof.
  intros Hs.
  induction r as [|a r IH]; intros x; cbn [map fold_left]; [reflexivity|].
  now rewrite minimum_scale, IH.
Qed.

Lemma fold_maximum_scale (s : R) (r : list xreal) :
  0 < s ->
  forall x,
    fold_left maximum (map (mul (Some s)) r) (mul (Some s) x)
    = mul (Some s) (fold_left maximum r x).
Proof.
  intros Hs.
  induction r as [|a r IH]; intros x; cbn [map fold_left]; [reflexivity|].
  now rewrite maximum_scale, IH.
Qed.

(** One quotient of stage 4 does not see a positive scale. *)
Lemma quotient_scale (s : R) (a mn mx k : xreal) :
  0 < s ->
  mul (div (sub (mul (Some s) a) (mul (Some s) mn))
           (sub (mul (Some s) mx) (mul (Some s) mn))) k
  = mul (div (sub a mn) (sub mx mn)) k.
Proof.
  intros Hs. cbn [mul div sub arith].
  destruct a as [a|], mn as [mn|], mx as [mx|]; simpl; try reflexivity.
  destruct (Req_dec_T (s * mx - s * mn) 0) as [E|E],
           (Req_dec_T (mx - mn) 0) as [E'|E']; simpl; try reflexivity.
  - exfalso. apply E'.
    assert (H : s * (mx - mn) = 0) by lra.
    apply Rmult_integral in H. destruct H; lra.
  - exfalso. apply E. rewrite <- Rmult_minus_distr_l, E'. lra.
  - destruct k as [k|]; simpl; [|reflexivity]. f_equal. field. lra.
Qed.

Lemma rescale_scale (s : R) (w : list xreal) (n : Z) :
  0 < s -> rescale (map (mul (Some s)) w) n = rescale w n.
Proof.
  intros Hs. destruct w as [|x r]; [reflexivity|].
  unfold rescale, amin, amax. cbn [map bind].
  rewrite fold_minimum_scale, fold_maximum_scale by assumption.
  rewrite quotient_scale by assumption.
  apply f_equal. apply f_equal. rewrite map_map. apply map_ext.
  intros v. now apply quotient_scale.
Qed.

(** Stages 1 to 4 with a positive scale: neither [m] nor [s] is left. *)
Lemma continuous_timesteps_unscaled (ppf : xreal -> xreal) (n : Z) (m s : R) :
  0 < s ->
  continuous_timesteps ppf n (Some m) (Some s)
  = (u <- clipped_fractions n ;; rescale (map ppf u) n).
Proof.
  intros Hs. rewrite ExactRun.continuous_timesteps_shift.
  destruct (clipped_fractions n) as [u|e]; [|reflexivity]. cbn [bind].
  rewrite <- (rescale_scale (map ppf u) n Hs). now rewrite map_map.
Qed.
End ExactMore.

(** X6. In exact arithmetic the two parameters have no effect on the
    result: for every [num_steps], every [ppf], any reals [m1], [m2] and
    any positive reals [s1], [s2], the two calls return the same result.
    Stage 4 subtracts [min(v)], which cancels [m], and divides by
    [max(v) - min(v)], which cancels [s]. *)
Theorem parameters_cancel :
  forall (ppf : Exact.xreal -> Exact.xreal) (num_steps : Z)
         (m1 m2 s1 s2 : R),
    (0 < s1)%R -> (0 < s2)%R ->
    get_biased_timesteps ppf num_steps (Some m1) (Some s1)
    = get_biased_timesteps ppf num_steps (Some m2) (Some s2).
Proof.
  intros ppf n m1 m2 s1 s2 H1 H2.
  rewrite !get_biased_timesteps_stages. unfold rounded_timesteps.
  now rewrite !ExactMore.continuous_timesteps_unscaled.
Qed.

Lemma parameters_cancel_witness :
  (0 < 1 / 2)%R /\ (0 < 3)%R
  /\ get_biased_timesteps (Exact.lift (fun x => x - 1 / 2)%R) 4
       (Some 0%R) (Some (1 / 2)%R)
     = get_biased_timesteps (Exact.lift (fun x => x - 1 / 2)%R) 4
         (Some 7%R) (Some 3%R).
Proof.
  assert (H1 : (0 < 1 / 2)%R) by lra.
  assert (H2 : (0 < 3)%R) by lra.
  split; [exact H1|]. split; [exact H2|].
  exact (@parameters_cancel (Exact.lift (fun x => x - 1 / 2)%R) 4%Z
           0%R 7%R (1 / 2)%R 3%R H1 H2).
Defined.

(** ** The result in exact arithmetic *)

Module ExactShape.
Open Scope R_scope.
Import Exact.

(** [t[k]] for an increasing warp. *)
Lemma continuous_timesteps_increasing (phi : R -> R) (n : Z) (m s : R) :
  (2 <= n)%Z -> 0 < s -> increasing phi ->
  continuous_timesteps (lift phi) n (Some m) (Some s)
  = Ok (map (fun k =>
               Some ((phi (clipR (fraction n k)) - phi eps)
                     / (phi (1 - eps) - phi eps) * IZR (n - 1)))
            (seq 0 (Z.to_nat n))).
Proof.
  intros Hn Hs Hinc.
  pose proof (ExactRun.warped_monotone m Hn Hs
                (ExactRun.increasing_non_decreasing Hinc)) as Hmono.
  pose proof ExactRun.eps_bounds as He.
  assert (Hlt : phi eps < phi (1 - eps)) by (apply Hinc; lra).
  rewrite ExactRun.continuous_timesteps_exact by assumption.
  replace (Z.to_nat n) with (S (Z.to_nat n - 1)) by lia.
  rewrite (ExactRun.rescale_monotone n (warped phi n m s) (Z.to_nat n - 1) Hmono).
  rewrite ExactRun.warped_first, ExactRun.warped_last by assumption.
  apply f_equal. apply map_ext. intros k. unfold scaled, warped.
  destruct (Req_dec_T (m + s * phi (1 - eps) - (m + s * phi eps)) 0) as [E|E].
  - exfalso. assert (H : s * (phi (1 - eps) - phi eps) = 0) by lra.
    apply Rmult_integral in H. destruct H; lra.
  - f_equal. field. lra.
Qed.

Lemma nearest_even_range (x : R) (hi : Z) :
  0 <= x <= IZR hi -> (0 <= nearest_even x <= hi)%Z.
Proof.
  intros [H0 H1].
  pose proof (ExactRun.nearest_even_monotone H0) as L0.
  pose proof (ExactRun.nearest_even_monotone H1) as L1.
  rewrite (ExactLaws.nearest_even_IZR 0) in L0.
  rewrite ExactLaws.nearest_even_IZR in L1. lia.
Qed.

Lemma stage5_exact (n : Z) (tau : nat -> R) (len : nat) :
  (forall k : nat, 0 <= tau k <= IZR (n - 1)) ->
  clip_int (round_astype_int (map (fun k => Some (tau k)) (seq 0 len)))
           0 (n - 1)
  = map (fun k => nearest_even (tau k)) (seq 0 len).
Proof.
  intros Hr. unfold clip_int, round_astype_int. rewrite !map_map.
  apply map_ext. intros k.
  cbn [rint astype_int arith xrint xastype_int].
  rewrite ExactLaws.truncate_IZR.
  pose proof (@nearest_even_range (tau k) (n - 1)%Z (Hr k)).
  unfold clip1_int. lia.
Qed.

(** The closed form of a run with a positive scale. *)
Lemma increasing_run (phi : R -> R) (n : Z) (m s : R) :
  (2 <= n)%Z -> 0 < s -> increasing phi ->
  get_biased_timesteps (lift phi) n (Some m) (Some s)
  = Ok (map (fun k =>
               nearest_even ((phi (clipR (fraction n k)) - phi eps)
                             / (phi (1 - eps) - phi eps) * IZR (n - 1)))
            (seq 0 (Z.to_nat n))).
Proof.
  intros Hn Hs Hinc.
  pose proof ExactRun.eps_bounds as He.
  assert (Hlt : phi eps < phi (1 - eps)) by (apply Hinc; lra).
  assert (Hpos : 0 < / (phi (1 - eps) - phi eps))
    by (apply Rinv_0_lt_compat; lra).
  assert (Hk : 0 < IZR (n - 1)) by (apply IZR_lt; lia).
  pose proof (ExactRun.increasing_non_decreasing Hinc) as Hnd.
  set (tau := fun k : nat =>
                (phi (clipR (fraction n k)) - phi eps)
                / (phi (1 - eps) - phi eps) * IZR (n - 1)).
  assert (Hphi : forall k, phi eps <= phi (clipR (fraction n k)) <= phi (1 - eps)).
  { intros k. pose proof (ExactRun.clipR_range (fraction n k)).
    split; apply Hnd; lra. }
  assert (Hrange : forall k, 0 <= tau k <= IZR (n - 1)).
  { intros k. subst tau. cbv beta. destruct (Hphi k) as [Hlo Hhi]. split.
    - apply Rmult_le_pos; [|lra]. unfold Rdiv. apply Rmult_le_pos; lra.
    - rewrite <- (Rmult_1_l (IZR (n - 1))) at 2.
      apply Rmult_le_compat_r; [lra|].
      apply (Rmult_le_reg_r (phi (1 - eps) - phi eps)); [lra|].
      unfold Rdiv. rewrite Rmult_assoc, Rinv_l by lra. lra. }
  assert (Hmono : forall i j : nat, (i <= j)%nat ->
                    (nearest_even (tau i) <= nearest_even (tau j))%Z).
  { intros i j Hij. apply ExactRun.nearest_even_monotone. subst tau. cbv beta.
    pose proof (ExactRun.clipR_range (fraction n i)).
    pose proof (ExactRun.clipR_range (fraction n j)).
    assert (clipR (fraction n i) <= clipR (fraction n j))
      by (apply ExactRun.clipR_monotone, ExactRun.fraction_monotone; assumption).
    assert (phi (clipR (fraction n i)) <= phi (clipR (fraction n j)))
      by (apply Hnd; lra).
    apply Rmult_le_compat_r; [lra|].
    unfold Rdiv. apply Rmult_le_compat_r; lra. }
  rewrite get_biased_timesteps_stages. unfold rounded_timesteps.
  rewrite (continuous_timesteps_increasing m Hn Hs Hinc). cbn [bind].
  pose proof (stage5_exact n tau (Z.to_nat n) Hrange) as E5.
  pose proof (ExactRun.non_decreasing_map_seq
                (fun k => nearest_even (tau k)) (Z.to_nat n) Hmono) as Hnd5.
  unfold tau in E5, Hnd5. cbv beta in E5, Hnd5.
  rewrite E5. now rewrite ensure_monotonic_fixed.
Qed.
End ExactShape.

(** X7. In exact arithmetic, for every [num_steps >= 2], every real [m]
    and every real [s > 0], with an increasing [ppf], the call returns,
    at each index [k], the integer nearest (ties to even) to
    [(ppf(u[k]) - ppf(eps)) / (ppf(1 - eps) - ppf(eps)) * (num_steps - 1)],
    where [u[k]] is the clipped fraction [k / (num_steps - 1)]: the clip
    of stage 5 and the loop of stage 6 change no element. *)
Theorem result_closed_form :
  forall (phi : R -> R) (num_steps : Z) (m s : R),
    (2 <= num_steps)%Z -> (0 < s)%R -> Exact.increasing phi ->
    get_biased_timesteps (Exact.lift phi) num_steps (Some m) (Some s)
    = Ok (map (fun k =>
                 Exact.nearest_even
                   ((phi (Exact.clipR (Exact.fraction num_steps k))
                     - phi Exact.eps)
                    / (phi (1 - Exact.eps) - phi Exact.eps)
                    * IZR (num_steps - 1))%R)
              (seq 0 (Z.to_nat num_steps))).
Proof.
  intros phi n m s Hn Hs Hinc.
  exact (ExactShape.increasing_run m Hn Hs Hinc).
Qed.

Lemma result_closed_form_witness :
  (2 <= 3)%Z /\ (0 < 1 / 2)%R /\ Exact.increasing (fun x => x - 1 / 2)%R
  /\ get_biased_timesteps (Exact.lift (fun x => x - 1 / 2)%R) 3
       (Some 0%R) (Some (1 / 2)%R)
     = Ok (map (fun k =>
                  Exact.nearest_even
                    (((fun x => x - 1 / 2) (Exact.clipR (Exact.fraction 3 k))
                      - (fun x => x - 1 / 2) Exact.eps)
                     / ((fun x => x - 1 / 2) (1 - Exact.eps)
                        - (fun x => x - 1 / 2) Exact.eps)
                     * IZR (3 - 1))%R)
               (seq 0 (Z.to_nat 3))).
Proof.
  assert (H3 : (2 <= 3)%Z) by lia.
  assert (Hs : (0 < 1 / 2)%R) by lra.
  assert (Hinc : Exact.increasing (fun x => x - 1 / 2)%R)
    by (intros x y _ Hxy _; lra).
  split; [exact H3|]. split; [exact Hs|]. split; [exact Hinc|].
  exact (@result_closed_form (fun x => x - 1 / 2)%R 3%Z 0%R (1 / 2)%R
           H3 Hs Hinc).
Defined.

(** X8. In exact arithmetic, for every [num_steps >= 2], every real [m]
    and every real [s > 0], with an increasing [ppf], the last element
    of the returned sequence is [num_steps - 1]. *)
Theorem last_timestep_is_top :
  forall (phi : R -> R) (num_steps : Z) (m s : R),
    (2 <= num_steps)%Z -> (0 < s)%R -> Exact.increasing phi ->
    exists timesteps : list Z,
      get_biased_timesteps (Exact.lift phi) num_steps (Some m) (Some s)
      = Ok timesteps
      /\ nth (Z.to_nat num_steps - 1) timesteps 0%Z = (num_steps - 1)%Z.
Proof.
  intros phi n m s Hn Hs Hinc.
  rewrite (ExactShape.increasing_run m Hn Hs Hinc).
  eexists. split; [reflexivity|].
  rewrite ExactRun.nth_map_seq by lia.
  rewrite ExactRun.fraction_last, ExactRun.clipR_one by assumption.
  pose proof ExactRun.eps_bounds as He.
  assert (Hlt : (phi Exact.eps < phi (1 - Exact.eps))%R) by (apply Hinc; lra).
  replace ((phi (1 - Exact.eps) - phi Exact.eps)
           / (phi (1 - Exact.eps) - phi Exact.eps) * IZR (n - 1))%R
    with (IZR (n - 1)) by (field; lra).
  apply ExactLaws.nearest_even_IZR.
Qed.

Lemma last_timestep_is_top_witness :
  (2 <= 3)%Z /\ (0 < 1 / 2)%R /\ Exact.increasing (fun x => x - 1 / 2)%R
  /\ exists timesteps : list Z,
       get_biased_timesteps (Exact.lift (fun x => x - 1 / 2)%R) 3
         (Some 0%R) (Some (1 / 2)%R) = Ok timesteps
       /\ nth (Z.to_nat 3 - 1) timesteps 0%Z = (3 - 1)%Z.
Proof.
  assert (H3 : (2 <= 3)%Z) by lia.
  assert (Hs : (0 < 1 / 2)%R) by lra.
  assert (Hinc : Exact.increasing (fun x => x - 1 / 2)%R)
    by (intros x y _ Hxy _; lra).
  split; [exact H3|]. split; [exact Hs|]. split; [exact Hinc|].
  exact (@last_timestep_is_top (fun x => x - 1 / 2)%R 3%Z 0%R (1 / 2)%R
           H3 Hs Hinc).
Defined.

(** ** A negative scale *)

Module ExactReversed.
Open Scope R_scope.
Import Exact.

Lemma warped_antitone (phi : R -> R) (n : Z) (m s : R) :
  (2 <= n)%Z -> s < 0 -> non_decreasing_on_unit phi ->
  forall i j : nat, (i <= j)%nat -> warped phi n m s j <= warped phi n m s i.
Proof.
  intros Hn Hs Hphi i j Hij. unfold warped.
  pose proof ExactRun.eps_bounds.
  pose proof (ExactRun.clipR_range (fraction n i)).
  pose proof (ExactRun.clipR_range (fraction n j)).
  assert (clipR (fraction n i) <= clipR (fraction n j))
    by (apply ExactRun.clipR_monotone, ExactRun.fraction_monotone; assumption).
  assert (phi (clipR (fraction n i)) <= phi (clipR (fraction n j)))
    by (apply Hphi; lra).
  apply Rplus_le_compat_l, Rmult_le_compat_neg_l; lra.
Qed.

Lemma rescale_antitone (n : Z) (v : nat -> R) (last : nat) :
  (forall i j : nat, (i <= j)%nat -> v j <= v i) ->
  rescale (map Some (map v (seq 0 (S last)))) n
  = Ok (map (fun k => scaled n (v last) (v 0%nat) (v k)) (seq 0 (S last))).
Proof.
  intros Hv. cbn [seq map].
  destruct (ExactRun.rescale_exact n (v 0%nat) (map v (seq 1 last)))
    as [mn [mx [_ [_ [Hb [Hmn [Hmx E]]]]]]].
  change (v 0%nat :: map v (seq 1 last)) with (map v (seq 0 (S last))) in *.
  apply in_map_iff in Hmn. destruct Hmn as [i [Hi Hin]].
  apply in_map_iff in Hmx. destruct Hmx as [j [Hj Hjn]].
  apply in_seq in Hin. apply in_seq in Hjn.
  assert (H0 : mn <= v 0%nat <= mx).
  { apply Hb. apply in_map_iff. exists 0%nat. split; [reflexivity|].
    apply in_seq. lia. }
  assert (Hl : mn <= v last <= mx).
  { apply Hb. apply in_map_iff. exists last. split; [reflexivity|].
    apply in_seq. lia. }
  assert (mn = v last) as ->.
  { pose proof (Hv i last). apply Rle_antisym; [lra|]. rewrite <- Hi. apply H. lia. }
  assert (mx = v 0%nat) as ->.
  { pose proof (Hv 0%nat j). apply Rle_antisym; [|lra]. rewrite <- Hj. apply H. lia. }
  cbn [seq map] in E. rewrite E. cbn [seq map]. rewrite map_map. reflexivity.
Qed.

Lemma forward_fill_top (p : Z) (l : list Z) :
  Forall (fun x => x <= p)%Z l -> forward_fill p l = repeat p (length l).
Proof.
  induction 1 as [|x l Hx _ IH]; [reflexivity|]. cbn [forward_fill length repeat].
  destruct (Z.ltb_spec x p).
  - now rewrite IH.
  - assert (x = p) as -> by lia. now rewrite IH.
Qed.

(** A run with a negative scale. *)
Lemma reversed_run (phi : R -> R) (n : Z) (m s : R) :
  (2 <= n)%Z -> s < 0 -> increasing phi ->
  get_biased_timesteps (lift phi) n (Some m) (Some s)
  = Ok (repeat (n - 1)%Z (Z.to_nat n)).
Proof.
  intros Hn Hs Hinc.
  pose proof (warped_antitone m Hn Hs
                (ExactRun.increasing_non_decreasing Hinc)) as Hanti.
  pose proof ExactRun.eps_bounds as He.
  assert (Hlt : phi eps < phi (1 - eps)) by (apply Hinc; lra).
  set (v := warped phi n m s) in *.
  set (last := (Z.to_nat n - 1)%nat).
  assert (Hv0 : v 0%nat = m + s * phi eps)
    by (subst v; now apply ExactRun.warped_first).
  assert (Hvl : v last = m + s * phi (1 - eps))
    by (subst v last; now apply ExactRun.warped_last).
  assert (Hden : v 0%nat - v last <> 0).
  { rewrite Hv0, Hvl. intros E.
    assert (H : s * (phi eps - phi (1 - eps)) = 0) by lra.
    apply Rmult_integral in H. destruct H; lra. }
  set (z := fun k : nat =>
              clip1_int 0 (n - 1)
                (astype_int (rint (scaled n (v last) (v 0%nat) (v k))))).
  assert (Hr : rounded_timesteps (lift phi) n (Some m) (Some s)
               = Ok (map z (seq 0 (S last)))).
  { unfold rounded_timesteps.
    rewrite ExactRun.continuous_timesteps_exact by assumption. fold v.
    replace (Z.to_nat n) with (S last) by (subst last; lia).
    rewrite (rescale_antitone n v last Hanti). cbn [bind].
    unfold clip_int, round_astype_int. now rewrite !map_map. }
  assert (Hz0 : z 0%nat = (n - 1)%Z).
  { subst z. cbv beta. unfold scaled.
    destruct (Req_dec_T (v 0%nat - v last) 0) as [E|_]; [contradiction|].
    cbn [rint astype_int arith xrint xastype_int].
    rewrite ExactLaws.truncate_IZR.
    replace ((v 0%nat - v last) / (v 0%nat - v last) * IZR (n - 1))
      with (IZR (n - 1)) by (field; exact Hden).
    rewrite ExactLaws.nearest_even_IZR. unfold clip1_int. lia. }
  rewrite get_biased_timesteps_stages, Hr. cbn [bind seq map].
  rewrite ensure_monotonic_cons, Hz0.
  rewrite forward_fill_top.
  - rewrite length_map, length_seq.
    replace (Z.to_nat n) with (S last) by (subst last; lia). reflexivity.
  - apply Forall_forall. intros x Hx. apply in_map_iff in Hx.
    destruct Hx as [k [<- _]]. subst z. cbv beta. unfold clip1_int. lia.
Qed.
End ExactReversed.

(** X9. In exact arithmetic, for every [num_steps >= 2], every real [m]
    and every negative real [s], with an increasing [ppf], the call
    returns [num_steps] times [num_steps - 1]: the warp is reversed, the
    first element is rescaled to [num_steps - 1], and the loop of stage 6
    copies it over every later element. *)
Theorem negative_scale_gives_top :
  forall (phi : R -> R) (num_steps : Z) (m s : R),
    (2 <= num_steps)%Z -> (s < 0)%R -> Exact.increasing phi ->
    get_biased_timesteps (Exact.lift phi) num_steps (Some m) (Some s)
    = Ok (repeat (num_steps - 1)%Z (Z.to_nat num_steps)).
Proof.
  intros phi n m s Hn Hs Hinc.
  exact (ExactReversed.reversed_run m Hn Hs Hinc).
Qed.

Lemma negative_scale_gives_top_witness :
  (2 <= 3)%Z /\ (- 1 < 0)%R /\ Exact.increasing (fun x => x - 1 / 2)%R
  /\ get_biased_timesteps (Exact.lift (fun x => x - 1 / 2)%R) 3
       (Some 0%R) (Some (- 1)%R)
     = Ok (repeat (3 - 1)%Z (Z.to_nat 3)).
Proof.
  assert (H3 : (2 <= 3)%Z) by lia.
  assert (Hs : (- 1 < 0)%R) by lra.
  assert (Hinc : Exact.increasing (fun x => x - 1 / 2)%R)
    by (intros x y _ Hxy _; lra).
  split; [exact H3|]. split; [exact Hs|]. split; [exact Hinc|].
  exact (@negative_scale_gives_top (fun x => x - 1 / 2)%R 3%Z 0%R (- 1)%R
           H3 Hs Hinc).
Defined.

(** The same runs on binary64, for three steps. *)
Example negative_scale_binary64 :
  get_biased_timesteps B64.ppf_table 3 0%float (-0.5)%float = Ok [2; 2; 2]%Z.
Proof. vm_compute. reflexivity. Qed.

Example other_parameters_binary64 :
  get_biased_timesteps B64.ppf_table 3 7%float 3%float
  = get_biased_timesteps B64.ppf_table 3 0%float 0.5%float.
Proof. vm_compute. reflexivity. Qed.

(** ** The default warp on binary64 *)

(** Multiplying by [0.5] and adding [0.0], on the specification of the
    floats: the product is [B64.half_spec], which keeps the order. *)
Module B64Warp.
Import B64.
Open Scope Z_scope.

Lemma valid_finite_cases (s : bool) (m : positive) (e : Z) :
  valid_binary (S754_finite s m e) = true ->
  e <= 971
  /\ ((e = -1074 /\ Zpos (digits2_pos m) <= 53)
      \/ (-1074 < e /\ Zpos (digits2_pos m) = 53)).
Proof.
  unfold valid_binary, bounded, canonical_mantissa, SpecFloat.fexp, SpecFloat.emin, prec, emax.
  intros H. apply andb_prop in H. destruct H as [H1 H2].
  apply Z.eqb_eq in H1. apply Z.leb_le in H2.
  unfold SpecFloat.fexp, SpecFloat.emin in H1. lia.
Qed.

Lemma digits_scaled (m : positive) :
  Zpos (digits2_pos (4503599627370496 * m)) = Zpos (digits2_pos m) + 52.
Proof.
  cbn [Pos.mul digits2_pos]. lia.
Qed.

Lemma shift52 (m : positive) :
  SpecFloat.iter_pos shr_1 52 {| shr_m := Zpos (4503599627370496 * m); shr_r := false; shr_s := false |}
  = {| shr_m := Zpos m; shr_r := false; shr_s := false |}.
Proof. reflexivity. Qed.

Lemma half_sf_spec : Prim2SF 0.5 = half_sf.
Proof. reflexivity. Qed.

Lemma fexp_normal (d e : Z) : d = 53 -> -1074 < e -> SpecFloat.fexp prec emax (d + 52 + (-53 + e)) - (-53 + e) = 52.
Proof. unfold SpecFloat.fexp, SpecFloat.emin, prec, emax. lia. Qed.

Lemma mul_half_normal (s : bool) (m : positive) (e : Z) :
  -1074 < e -> e <= 971 -> Zpos (digits2_pos m) = 53 ->
  SFmul prec emax half_sf (S754_finite s m e) = S754_finite s m (e - 1).
Proof.
  intros He He' Hd. unfold SFmul, half_sf. cbn [xorb].
  unfold binary_round_aux, shr_fexp. cbn [Zdigits2 shr_record_of_loc].
  rewrite digits_scaled, fexp_normal by assumption.
  unfold shr at 1. rewrite shift52.
  cbn [shr_m loc_of_shr_record round_nearest_even Zdigits2 shr_record_of_loc].
  replace (SpecFloat.fexp prec emax (Zpos (digits2_pos m) + (-53 + e + 52)) - (-53 + e + 52)) with 0
    by (unfold SpecFloat.fexp, SpecFloat.emin, prec, emax; lia).
  cbn [shr shr_m].
  replace (-53 + e + 52) with (e - 1) by lia.
  replace (e - 1 <=? emax - prec) with true; [reflexivity|].
  symmetry. apply Z.leb_le. unfold emax, prec. lia.
Qed.

Lemma digits_succ (p : positive) :
  Zpos (digits2_pos (Pos.succ p)) <= Zpos (digits2_pos p) + 1.
Proof.
  induction p as [p IH|p IH|]; cbn [Pos.succ digits2_pos]; lia.
Qed.

Lemma shift53 (m : positive) :
  SpecFloat.iter_pos shr_1 53 {| shr_m := Zpos (4503599627370496 * m); shr_r := false; shr_s := false |}
  = shr_1 {| shr_m := Zpos m; shr_r := false; shr_s := false |}.
Proof. reflexivity. Qed.

Lemma fexp_subnormal (d : Z) :
  0 <= d <= 53 -> SpecFloat.fexp prec emax (d + -1074) - -1074 = 0.
Proof. unfold SpecFloat.fexp, SpecFloat.emin, prec, emax. lia. Qed.

Lemma mul_half_subnormal (s : bool) (m : positive) :
  Zpos (digits2_pos m) <= 53 ->
  SFmul prec emax half_sf (S754_finite s m (-1074)) = half_sub s m.
Proof.
  intros Hd. unfold SFmul, half_sf. cbn [xorb].
  unfold binary_round_aux, shr_fexp. cbn [Zdigits2 shr_record_of_loc].
  rewrite digits_scaled.
  replace (SpecFloat.fexp prec emax (Zpos (digits2_pos m) + 52 + (-53 + -1074)) - (-53 + -1074))
    with 53 by (unfold SpecFloat.fexp, SpecFloat.emin, prec, emax; lia).
  unfold shr at 1. rewrite shift53.
  replace (-53 + -1074 + 53) with (-1074) by lia.
  destruct m as [p|p|]; cbn [shr_1 orb shr_m loc_of_shr_record round_nearest_even half_sub].
  - assert (Hp : Zpos (digits2_pos p) <= 52) by (cbn [digits2_pos] in Hd; lia).
    destruct (Z.even (Zpos p)) eqn:E.
    + cbn [Zdigits2 shr_record_of_loc]. rewrite fexp_subnormal by lia.
      reflexivity.
    + replace (Zpos p + 1) with (Zpos (Pos.succ p)) by lia.
      cbn [Zdigits2 shr_record_of_loc].
      rewrite fexp_subnormal by (pose proof (digits_succ p); lia).
      reflexivity.
  - assert (Hp : Zpos (digits2_pos p) <= 52) by (cbn [digits2_pos] in Hd; lia).
    cbn [Zdigits2 shr_record_of_loc]. rewrite fexp_subnormal by lia.
    reflexivity.
  - cbn [Z.even Zdigits2 shr_record_of_loc].
    replace (SpecFloat.fexp prec emax (0 + -1074) - -1074) with 0
      by (unfold SpecFloat.fexp, SpecFloat.emin, prec, emax; lia).
    reflexivity.
Qed.

Lemma SFmul_half (x : spec_float) :
  valid_binary x = true -> SFmul prec emax half_sf x = half_spec x.
Proof.
  destruct x as [s|s| |s m e]; intros Hv; try reflexivity.
  destruct (valid_finite_cases _ _ _ Hv) as [He [[-> Hd]|[Hlo Hd]]].
  - cbn [half_spec Z.eqb Pos.eqb]. now apply mul_half_subnormal.
  - cbn [half_spec]. destruct (Z.eqb_spec e (-1074)); [lia|].
    now apply mul_half_normal.
Qed.

Lemma digits_bounds (p : positive) :
  2 ^ (Zpos (digits2_pos p) - 1) <= Zpos p < 2 ^ Zpos (digits2_pos p).
Proof.
  induction p as [p IH|p IH|]; cbn [digits2_pos].
  - rewrite Pos2Z.inj_succ. replace (Z.succ (Zpos (digits2_pos p)) - 1)
      with (Z.succ (Zpos (digits2_pos p) - 1)) by lia.
    rewrite !Z.pow_succ_r by lia. lia.
  - rewrite Pos2Z.inj_succ. replace (Z.succ (Zpos (digits2_pos p)) - 1)
      with (Z.succ (Zpos (digits2_pos p) - 1)) by lia.
    rewrite !Z.pow_succ_r by lia. lia.
  - simpl. lia.
Qed.

Lemma digits_53_lower (p : positive) :
  Zpos (digits2_pos p) = 53 -> 4503599627370496 <= Zpos p.
Proof.
  intros H. pose proof (digits_bounds p) as [Hl _]. rewrite H in Hl.
  exact Hl.
Qed.

Lemma digits_53_upper (p : positive) :
  Zpos (digits2_pos p) <= 53 -> Zpos p < 9007199254740992.
Proof.
  intros H. pose proof (digits_bounds p) as [_ Hu].
  assert (2 ^ Zpos (digits2_pos p) <= 2 ^ 53) by (apply Z.pow_le_mono_r; lia).
  change (2 ^ 53) with 9007199254740992 in H0. lia.
Qed.

Lemma SFleb_pos (m1 m2 : positive) (e1 e2 : Z) :
  SFleb (S754_finite false m1 e1) (S754_finite false m2 e2) = true
  <-> e1 < e2 \/ (e1 = e2 /\ Zpos m1 <= Zpos m2).
Proof.
  unfold SFleb, SFcompare.
  change (Pos.compare_cont Eq m1 m2) with (Pos.compare m1 m2).
  destruct (Z.compare_spec e1 e2); [destruct (Pos.compare_spec m1 m2)| |];
    split; intros; try reflexivity; try discriminate; lia.
Qed.

Lemma SFleb_neg (m1 m2 : positive) (e1 e2 : Z) :
  SFleb (S754_finite true m1 e1) (S754_finite true m2 e2) = true
  <-> e2 < e1 \/ (e1 = e2 /\ Zpos m2 <= Zpos m1).
Proof.
  unfold SFleb, SFcompare.
  change (Pos.compare_cont Eq m1 m2) with (Pos.compare m1 m2).
  destruct (Z.compare_spec e1 e2); [destruct (Pos.compare_spec m1 m2)| |];
    simpl; split; intros; try reflexivity; try discriminate; lia.
Qed.

Lemma even_true (z : Z) : Z.even z = true -> exists k, z = 2 * k.
Proof. intros H. now apply Z.even_spec in H. Qed.

Lemma even_false (z : Z) : Z.even z = false -> exists k, z = 2 * k + 1.
Proof.
  intros H. apply Z.odd_spec. rewrite <- Z.negb_even, H. reflexivity.
Qed.

Ltac parity :=
  repeat match goal with
  | |- context [Z.even (Zpos ?p)] =>
      let E := fresh "E" in let k := fresh "k" in
      destruct (Z.even (Zpos p)) eqn:E;
      [apply even_true in E|apply even_false in E]; destruct E as [k E]
  end.

Ltac order_goal :=
  first [ reflexivity
        | apply SFleb_pos; lia
        | apply SFleb_neg; lia
        | exfalso; lia ].

Lemma half_pos_monotone (m1 m2 : positive) (e1 e2 : Z) :
  valid_binary (S754_finite false m1 e1) = true ->
  valid_binary (S754_finite false m2 e2) = true ->
  e1 < e2 \/ (e1 = e2 /\ Zpos m1 <= Zpos m2) ->
  SFleb (half_spec (S754_finite false m1 e1))
        (half_spec (S754_finite false m2 e2)) = true.
Proof.
  intros V1 V2 H.
  destruct (valid_finite_cases _ _ _ V1) as [He1 [[-> Hd1]|[Hlo1 Hd1]]];
    destruct (valid_finite_cases _ _ _ V2) as [He2 [[-> Hd2]|[Hlo2 Hd2]]];
    cbn [half_spec Z.eqb Pos.eqb].
  - destruct m1 as [p1|p1|], m2 as [p2|p2|]; cbn [half_sub]; parity;
      rewrite ?Pos2Z.inj_succ in *; order_goal.
  - destruct (Z.eqb_spec e2 (-1074)); [lia|].
    pose proof (digits_53_lower _ Hd2). pose proof (digits_53_upper _ Hd1).
    destruct m1 as [p1|p1|]; cbn [half_sub]; parity; order_goal.
  - exfalso. lia.
  - destruct (Z.eqb_spec e1 (-1074)); [lia|].
    destruct (Z.eqb_spec e2 (-1074)); [lia|]. order_goal.
Qed.

Lemma half_neg_monotone (m1 m2 : positive) (e1 e2 : Z) :
  valid_binary (S754_finite true m1 e1) = true ->
  valid_binary (S754_finite true m2 e2) = true ->
  e2 < e1 \/ (e1 = e2 /\ Zpos m2 <= Zpos m1) ->
  SFleb (half_spec (S754_finite true m1 e1))
        (half_spec (S754_finite true m2 e2)) = true.
Proof.
  intros V1 V2 H.
  destruct (valid_finite_cases _ _ _ V1) as [He1 [[-> Hd1]|[Hlo1 Hd1]]];
    destruct (valid_finite_cases _ _ _ V2) as [He2 [[-> Hd2]|[Hlo2 Hd2]]];
    cbn [half_spec Z.eqb Pos.eqb].
  - destruct m1 as [p1|p1|], m2 as [p2|p2|]; cbn [half_sub]; parity;
      rewrite ?Pos2Z.inj_succ in *; order_goal.
  - exfalso. lia.
  - destruct (Z.eqb_spec e1 (-1074)); [lia|].
    pose proof (digits_53_lower _ Hd1). pose proof (digits_53_upper _ Hd2).
    destruct m2 as [p2|p2|]; cbn [half_sub]; parity; order_goal.
  - destruct (Z.eqb_spec e1 (-1074)); [lia|].
    destruct (Z.eqb_spec e2 (-1074)); [lia|]. order_goal.
Qed.

Lemma half_spec_form (s : bool) (m : positive) (e : Z) :
  half_spec (S754_finite s m e) = S754_zero s
  \/ exists m' e', half_spec (S754_finite s m e) = S754_finite s m' e'.
Proof.
  cbn [half_spec]. destruct (e =? -1074); [|eauto].
  destruct m; cbn [half_sub]; eauto.
Qed.

Lemma half_spec_monotone (x y : spec_float) :
  valid_binary x = true -> valid_binary y = true ->
  SFleb x y = true -> SFleb (half_spec x) (half_spec y) = true.
Proof.
  intros Vx Vy H.
  destruct x as [sx|sx| |sx mx ex], y as [sy|sy| |sy my ey];
    try exact H; try discriminate.
  - destruct sy; [discriminate|].
    destruct (half_spec_form false my ey) as [->|[m' [e' ->]]]; reflexivity.
  - destruct sx; [|discriminate].
    destruct (half_spec_form sy my ey) as [->|[m' [e' ->]]]; reflexivity.
  - destruct sx; [|discriminate].
    destruct (half_spec_form true mx ex) as [->|[m' [e' ->]]]; reflexivity.
  - destruct sy; [discriminate|].
    destruct (half_spec_form sx mx ex) as [->|[m' [e' ->]]]; reflexivity.
  - destruct sx, sy.
    + apply half_neg_monotone; try assumption. now apply SFleb_neg.
    + destruct (half_spec_form true mx ex) as [->|[m' [e' ->]]];
        destruct (half_spec_form false my ey) as [->|[m'' [e'' ->]]];
        reflexivity.
    + discriminate.
    + apply half_pos_monotone; try assumption. now apply SFleb_pos.
Qed.

Lemma SFleb_add_zero (a b : spec_float) :
  SFleb (SFadd prec emax (S754_zero false) a)
        (SFadd prec emax (S754_zero false) b)
  = SFleb a b.
Proof.
  destruct a as [sa|sa| |sa ma ea], b as [sb|sb| |sb mb eb];
    try destruct sa; try destruct sb; reflexivity.
Qed.
End B64Warp.

Module B64First.
Open Scope float_scope.

Lemma leb_not_nan (a b : float) : (a <=? b) = true -> PrimFloat.is_nan b = false.
Proof.
  rewrite leb_spec. intros H. destruct (PrimFloat.is_nan b) eqn:E; [|reflexivity].
  apply B64Laws.is_nan_spec in E. rewrite E in H.
  destruct (Prim2SF a); discriminate.
Qed.

Lemma ltb_leb (a b : float) : (a <? b) = true -> (a <=? b) = true.
Proof.
  rewrite ltb_spec, leb_spec. unfold SFltb, SFleb.
  destruct (SFcompare (Prim2SF a) (Prim2SF b)) as [[| |]|];
    try discriminate; reflexivity.
Qed.

(** Stage 3 with the default parameters keeps a NaN and keeps the order. *)
Lemma default_warp_nan (x : float) :
  PrimFloat.is_nan x = true -> PrimFloat.is_nan (0 + 0.5 * x) = true.
Proof.
  intros H. apply B64Laws.is_nan_spec in H. apply B64Laws.is_nan_spec.
  rewrite add_spec, mul_spec, H. reflexivity.
Qed.

Lemma default_warp_monotone (a b : float) :
  (a <=? b) = true -> (0 + 0.5 * a <=? 0 + 0.5 * b) = true.
Proof.
  rewrite !leb_spec, !add_spec, !mul_spec. intros H.
  change (Prim2SF 0) with (S754_zero false).
  rewrite B64Warp.half_sf_spec.
  unfold SF64add, SF64mul.
  rewrite !B64Warp.SFmul_half by apply Prim2SF_valid.
  rewrite B64Warp.SFleb_add_zero.
  apply B64Warp.half_spec_monotone; try apply Prim2SF_valid. exact H.
Qed.

(** Stage 2 on binary64: a NaN is kept, a zero is raised to [eps], and
    every other float lands in [[eps, 1 - eps]]. *)
Lemma clip_nan (lo hi x : float) :
  PrimFloat.is_nan x = true -> clip1 lo hi x = x.
Proof.
  intros H. unfold clip1. cbn [is_nan B64.arith]. now rewrite H, H.
Qed.

Lemma clip_zero (x : float) :
  is_zero x = true ->
  clip1 finfo_eps (sub (of_int 1) finfo_eps) x = finfo_eps.
Proof.
  intros H. destruct (B64Degenerate.is_zero_b64 _ H) as [s Hs].
  change (clip1 0x1p-52 (1 - 0x1p-52) x = 0x1p-52).
  unfold clip1. cbn [is_nan ltb B64.arith].
  assert (Hn : PrimFloat.is_nan x = false).
  { destruct (PrimFloat.is_nan x) eqn:E; [|reflexivity].
    apply B64Laws.is_nan_spec in E. rewrite E in Hs. discriminate. }
  assert (Hl : (0x1p-52 <? x) = false).
  { rewrite ltb_spec, Hs. reflexivity. }
  rewrite Hn, Hl. reflexivity.
Qed.

Lemma clip_range (x : float) :
  PrimFloat.is_nan x = false ->
  (0x1p-52 <=? clip1 finfo_eps (sub (of_int 1) finfo_eps) x) = true
  /\ (clip1 finfo_eps (sub (of_int 1) finfo_eps) x <=? 1 - 0x1p-52) = true.
Proof.
  intros Hn.
  change (clip1 finfo_eps (sub (of_int 1) finfo_eps) x)
    with (clip1 0x1p-52 (1 - 0x1p-52) x).
  unfold clip1. cbn [is_nan ltb B64.arith]. rewrite Hn.
  destruct (0x1p-52 <? x) eqn:E1.
  - rewrite Hn. destruct (x <? 1 - 0x1p-52) eqn:E2.
    + split; now apply ltb_leb.
    + split; [now apply ltb_leb|reflexivity].
  - split; reflexivity.
Qed.

(** Stage 1 on binary64: the first fraction is a zero (NaN if the step
    is not finite). *)
Lemma add_zero_start (z : float) :
  zero_or_nan z -> zero_or_nan (add z (of_int 0)).
Proof.
  intros H. apply B64Laws.zero_or_nan_b64 in H. apply B64Laws.zero_or_nan_b64.
  change (add z (of_int 0)) with (z + 0).
  rewrite add_spec. change (Prim2SF 0) with (S754_zero false).
  destruct (Prim2SF z) as [s|s| |s m e]; simpl in H; try contradiction.
  - now destruct s.
  - exact I.
Qed.

Lemma set_last_head (x a : float) (l : list float) :
  l <> [] -> set_last x (a :: l) = a :: set_last x l.
Proof.
  intros H. destruct l as [|b l]; [congruence|]. reflexivity.
Qed.

Lemma linspace_head (num : Z) :
  (1 <= num)%Z ->
  exists (raw0 : float) (rest : list float),
    linspace (of_int 0) (of_int 1) num = Ok (raw0 :: rest)
    /\ zero_or_nan raw0.
Proof.
  intros Hn. unfold linspace. destruct (Z.ltb_spec num 0); [lia|].
  assert (Ha : arange num
               = 0%Z :: map Z.of_nat (seq 1 (Z.to_nat num - 1))).
  { unfold arange. replace (Z.to_nat num) with (S (Z.to_nat num - 1)) at 1 by lia.
    reflexivity. }
  rewrite Ha. clear Ha.
  assert (H0 : zero_or_nan (of_int (F := float) 0)) by (right; reflexivity).
  set (tl := map Z.of_nat (seq 1 (Z.to_nat num - 1))).
  assert (Htl : (1 < num)%Z -> tl <> []).
  { intros H1 E. apply (f_equal (@length Z)) in E. subst tl.
    rewrite length_map, length_seq in E. simpl in E. lia. }
  destruct (Z.ltb_spec 1 num) as [H1|H1].
  - destruct (Z.ltb_spec 0 (num - 1)); [|lia].
    destruct (is_zero _); cbn [map]; rewrite set_last_head;
      try (eexists; eexists; split; [reflexivity|]).
    + apply add_zero_start, mul_zero, div_zero, H0.
    + intros E. apply map_eq_nil, map_eq_nil, map_eq_nil in E. now apply Htl.
    + apply add_zero_start, mul_zero, H0.
    + intros E. apply map_eq_nil, map_eq_nil, map_eq_nil in E. now apply Htl.
  - destruct (Z.ltb_spec 0 (num - 1)); [lia|]. cbn [map].
    eexists; eexists; split; [reflexivity|].
    apply add_zero_start, mul_zero, H0.
Qed.

(** Stages 1 to 3 with the default parameters: the first warped value is
    NaN, or every other warped value is NaN or at least the first. *)
Lemma default_warp_first_least (ppf : float -> float) (num_steps : Z)
    (u : list float) :
  B64.keeps_nan ppf -> B64.least_at_eps ppf -> (1 <= num_steps)%Z ->
  clipped_fractions num_steps = Ok u ->
  match warp ppf default_m default_s u with
  | [] => True
  | v0 :: r =>
      PrimFloat.is_nan v0 = true
      \/ Forall (fun vi => PrimFloat.is_nan vi = true \/ (v0 <=? vi) = true) r
  end.
Proof.
  intros Hnan Hleast Hn Hu. unfold clipped_fractions in Hu.
  destruct (linspace_head Hn) as [raw0 [rest [E Hz]]]. rewrite E in Hu.
  unfold bind, clip in Hu. rewrite map_cons in Hu. injection Hu as <-.
  unfold warp. rewrite map_cons.
  change (add default_m) with (PrimFloat.add 0).
  change (mul default_s) with (PrimFloat.mul 0.5).
  destruct Hz as [Hz|Hz].
  - left. rewrite clip_nan by exact Hz. now apply default_warp_nan, Hnan.
  - right.
    assert (Hc : clip1 0x1p-52 0x1.ffffffffffffep-1 raw0 = 0x1p-52)
      by exact (clip_zero _ Hz).
    rewrite Hc. apply Forall_forall. intros vi Hvi.
    apply in_map_iff in Hvi. destruct Hvi as [ui [<- Hui]].
    apply in_map_iff in Hui. destruct Hui as [x [<- _]].
    destruct (PrimFloat.is_nan x) eqn:Ex.
    + left. rewrite clip_nan by exact Ex. now apply default_warp_nan, Hnan.
    + right. destruct (clip_range x Ex) as [Hlo Hhi].
      apply default_warp_monotone, Hleast; [exact Hlo|exact Hhi].
Qed.
End B64First.

(** ** The first element on binary64 *)

Section FirstOrNan.
Context {F : Type} {A : Arith F} {L : ZeroLaws A} {D : DegenerateLaws A}.

(** [v.min()] is [v[0]] itself when [v[0]] is NaN. *)
Lemma fold_minimum_nan (r : list F) (a : F) :
  is_nan a = true -> fold_left minimum r a = a.
Proof.
  intros Ha. induction r as [|b r IH]; [reflexivity|].
  cbn [fold_left]. unfold minimum at 2. rewrite Ha, orb_true_r. exact IH.
Qed.

(** [v.min()] is [v[0]] or NaN when every later element is NaN or at
    least [v[0]]. *)
Lemma fold_minimum_first_or_nan (r : list F) (v0 : F) :
  Forall (fun vi => is_nan vi = true \/ leb v0 vi = true) r ->
  fold_left minimum r v0 = v0 \/ is_nan (fold_left minimum r v0) = true.
Proof.
  induction 1 as [|vi r Hvi _ IH]; [now left|].
  cbn [fold_left]. unfold minimum at 2 4.
  destruct (leb v0 vi || is_nan v0) eqn:E; [exact IH|].
  destruct Hvi as [Hvi|Hvi].
  - right. rewrite (@fold_minimum_nan r vi Hvi). exact Hvi.
  - rewrite Hvi in E. discriminate.
Qed.

(** Stage 4 sends [v[0]] to a zero or NaN in both cases. *)
Lemma rescale_first_zero_or_nan (v0 : F) (r : list F) (num_steps : Z) :
  is_nan v0 = true
  \/ Forall (fun vi => is_nan vi = true \/ leb v0 vi = true) r ->
  exists t0 t,
    rescale (v0 :: r) num_steps = Ok (t0 :: t) /\ zero_or_nan t0.
Proof.
  intros Hv. unfold rescale. cbn [amin amax bind map].
  eexists. eexists. split; [reflexivity|].
  apply mul_zero, div_zero.
  destruct Hv as [Hv|Hv].
  - left. now apply nan_sub_l.
  - destruct (@fold_minimum_first_or_nan r v0 Hv) as [E|E].
    + rewrite E. apply sub_diag.
    + left. now apply nan_sub_r.
Qed.
End FirstOrNan.

Lemma ppf_step_keeps_nan : B64.keeps_nan B64.ppf_step.
Proof.
  intros x H. unfold B64.ppf_step. rewrite H. reflexivity.
Qed.

Lemma ppf_step_least_at_eps : B64.least_at_eps B64.ppf_step.
Proof.
  intros x Hlo _. pose proof (@B64First.leb_not_nan _ _ Hlo) as Hn.
  change (B64.ppf_step 0x1p-52) with (-0x1.04074bdbf8865p+3)%float.
  unfold B64.ppf_step. cbn [is_nan B64.arith]. rewrite Hn.
  destruct (PrimFloat.ltb x 0.5); [reflexivity|].
  destruct (PrimFloat.eqb x 0.5); reflexivity.
Qed.

(** C6. For every [num_steps >= 1] with the default parameters
    ([m = 0.0], [s = 0.5]), the first element of the list that the code
    returns in binary64 is 0, for every [ppf] that gives NaN on NaN and
    gives no less on [[eps, 1 - eps]] than it gives at [eps] (as the
    inverse normal CDF does).  Stages 1 and 2 make the first fraction
    [eps] and keep the others in [[eps, 1 - eps]]; [x |-> 0.0 + 0.5 * x]
    keeps the order of floats, so [v.min()] is [v[0]] or NaN; the
    difference [v[0] - v.min()] is then a zero or NaN, the quotient and
    the product of stage 4 keep it so, and stage 5 rounds, casts and
    clips it to 0. *)
Theorem first_timestep_is_zero :
  forall (ppf : float -> float) (num_steps : Z),
    (1 <= num_steps)%Z ->
    B64.keeps_nan ppf ->
    B64.least_at_eps ppf ->
    exists rest,
      get_biased_timesteps ppf num_steps default_m default_s = Ok (0%Z :: rest).
Proof.
  intros ppf num_steps Hn Hnan Hleast.
  destruct (@clipped_fractions_length float B64.arith num_steps)
    as [u [Hu Hlen]]; [lia|].
  pose proof (@B64First.default_warp_first_least ppf num_steps u Hnan Hleast Hn Hu) as Hv.
  rewrite get_biased_timesteps_stages.
  unfold rounded_timesteps, continuous_timesteps.
  rewrite Hu. cbn [bind].
  destruct (warp ppf default_m default_s u) as [|v0 r] eqn:E.
  - apply (f_equal (@length float)) in E. rewrite warp_length, Hlen in E.
    simpl in E. lia.
  - destruct (@rescale_first_zero_or_nan float B64.arith B64Laws.laws
                B64Degenerate.laws v0 r num_steps Hv) as [t0 [t [-> Ht0]]].
    cbn [bind round_astype_int clip_int map].
    rewrite ensure_monotonic_cons.
    rewrite clip_zero_or_below; [eexists; reflexivity| |lia].
    apply cast_zero, rint_zero, Ht0.
Qed.

Lemma first_timestep_is_zero_witness :
  (1 <= 3)%Z
  /\ B64.keeps_nan B64.ppf_step
  /\ B64.least_at_eps B64.ppf_step
  /\ exists rest,
       get_biased_timesteps B64.ppf_step 3 default_m default_s
       = Ok (0%Z :: rest).
Proof.
  assert (H3 : (1 <= 3)%Z) by lia.
  split; [exact H3|].
  split; [exact ppf_step_keeps_nan|].
  split; [exact ppf_step_least_at_eps|].
  exact (@first_timestep_is_zero B64.ppf_step 3%Z H3
           ppf_step_keeps_nan ppf_step_least_at_eps).
Defined.
